(** * Bit-level I/O engine of the reference codec: TComBitStream.cpp

    A shallow embedding of [TComOutputBitstream] (the bit writer) and
    [TComInputBitstream] (the bit reader) of
    [Lib/TLibCommon/TComBitStream.cpp], and the properties of the
    specification proved about it.

    Conventions of the embedding.
    - [UInt], [unsigned] and [unsigned int] are 32-bit: a value is a [Z] and
      every operation that can leave [0, 2^32) is followed by [to_UInt].
      [unsigned char] and [uint8_t] are 8-bit ([to_uint8]).
    - A [std::vector<uint8_t>] is a [list Z] of bytes.
    - A failed [assert] and an access outside a vector are faults: the
      operation returns [None].
    - A shift is the mathematical one followed by the wrap of its C type.
      The shifts whose count can reach the width of the type
      ([m_held_bits << topword] in [write], [retval <<= uiNumberOfBits] in
      [read], [ruiBits <<= ...] in [pseudoRead]) only do so on an operand
      that is zero (lemmas [held_zero_when_aligned] and [land_lnot_ff_0];
      in [pseudoRead], a read of no bit with no bit held). *)

From Stdlib Require Import ZArith List Lia Bool.
Import ListNotations.
Local Open Scope Z_scope.

(** ** Fixed-width integers *)

Definition to_UInt (x : Z) : Z := x mod 2 ^ 32.
Definition to_uint8 (x : Z) : Z := x mod 2 ^ 8.

(** [v.push_back(x)] on a [vector<uint8_t>]: the argument is converted to
    [uint8_t]. *)
Definition push_back (v : list Z) (x : Z) : list Z := v ++ [to_uint8 x].

(** [v.size()] *)
Definition size (v : list Z) : Z := Z.of_nat (length v).

Notation "x <- a ;; b" :=
  (match a with Some x => b | None => None end)
  (at level 61, a at next level, right associativity).
Notation "' p <- a ;; b" :=
  (match a with Some p => b | None => None end)
  (at level 61, p pattern, a at next level, right associativity).

(** [assert(c)] *)
Definition assert (c : bool) : option unit := if c then Some tt else None.

(** ** The writer *)

Module TComOutputBitstream.

Record t : Type := mk
  { m_fifo : list Z;          (* std::vector<uint8_t> *m_fifo *)
    m_held_bits : Z;          (* unsigned char *)
    m_num_held_bits : Z }.    (* unsigned int *)

Definition clear (s : t) : t :=
  {| m_fifo := []; m_held_bits := 0; m_num_held_bits := 0 |}.

(** The constructor: a new vector, then [clear()]. *)
Definition create : t :=
  clear {| m_fifo := []; m_held_bits := 0; m_num_held_bits := 0 |}.

Definition getByteStream (s : t) : list Z := m_fifo s.

Definition getByteStreamLength (s : t) : Z := to_UInt (size (m_fifo s)).

(** Modelled from the spec: the header TComBitStream.h, which defines
    [getNumBitsUntilByteAligned], is missing; the specification of
    [writeAlignOne] calls it "the number of bits needed to reach
    alignment". *)
Definition getNumBitsUntilByteAligned (s : t) : Z :=
  (8 - m_num_held_bits s) mod 8.

(** Modelled from the spec: the header TComBitStream.h, which defines
    [getNumberOfWrittenBits], is missing; the specification of [insertAt]
    calls it the "written bit count" of the stream: the flushed bytes and
    the held bits. *)
Definition getNumberOfWrittenBits (s : t) : Z :=
  size (m_fifo s) * 8 + m_num_held_bits s.

(** The [switch (num_total_bits >> 3)] of [write]; the cases fall
    through, and there is no default. *)
Definition write_switch (fifo : list Z) (k write_bits : Z) : list Z :=
  let case1 f := push_back f write_bits in
  let case2 f := case1 (push_back f (Z.shiftr write_bits 8)) in
  let case3 f := case2 (push_back f (Z.shiftr write_bits 16)) in
  let case4 f := case3 (push_back f (Z.shiftr write_bits 24)) in
  match k with
  | 4 => case4 fifo
  | 3 => case3 fifo
  | 2 => case2 fifo
  | 1 => case1 fifo
  | _ => fifo
  end.

Definition write (s : t) (uiBits uiNumberOfBits : Z) : option t :=
  _ <- assert (uiNumberOfBits <=? 32) ;;
  let num_total_bits := to_UInt (uiNumberOfBits + m_num_held_bits s) in
  let next_num_held_bits := num_total_bits mod 8 in
  let next_held_bits :=
    to_uint8 (to_UInt (Z.shiftl uiBits (to_UInt (8 - next_num_held_bits)))) in
  if Z.shiftr num_total_bits 3 =? 0 then
    Some {| m_fifo := m_fifo s;
            m_held_bits := to_uint8 (Z.lor (m_held_bits s) next_held_bits);
            m_num_held_bits := next_num_held_bits |}
  else
    let topword :=
      Z.land (to_UInt (uiNumberOfBits - next_num_held_bits))
             (to_UInt (Z.lnot (Z.shiftl 1 3 - 1))) in
    let write_bits :=
      to_UInt (Z.lor (Z.shiftl (m_held_bits s) topword)
                     (Z.shiftr uiBits next_num_held_bits)) in
    Some {| m_fifo := write_switch (m_fifo s) (Z.shiftr num_total_bits 3) write_bits;
            m_held_bits := next_held_bits;
            m_num_held_bits := next_num_held_bits |}.

Definition writeAlignOne (s : t) : option t :=
  let num_bits := to_UInt (getNumBitsUntilByteAligned s) in
  write s (to_UInt (Z.shiftl 1 num_bits - 1)) num_bits.

Definition writeAlignZero (s : t) : t :=
  if 0 =? m_num_held_bits s then s
  else {| m_fifo := push_back (m_fifo s) (m_held_bits s);
          m_held_bits := 0;
          m_num_held_bits := 0 |}.

(** [v.insert(v.begin() + pos, first, last)]: the elements at and after
    [pos] move later.  An iterator past [v.end()] is a fault. *)
Fixpoint vector_insert (v : list Z) (pos : nat) (src : list Z)
  : option (list Z) :=
  match pos, v with
  | O, _ => Some (src ++ v)
  | S p, x :: v' => r <- vector_insert v' p src ;; Some (x :: r)
  | S _, [] => None
  end.

Definition insertAt (this src : t) (pos : Z) : option t :=
  let src_bits := to_UInt (getNumberOfWrittenBits src) in
  _ <- assert (0 =? src_bits mod 8) ;;
  fifo <- vector_insert (m_fifo this) (Z.to_nat pos) (m_fifo src) ;;
  Some {| m_fifo := fifo;
          m_held_bits := m_held_bits this;
          m_num_held_bits := m_num_held_bits this |}.

(** The writers of a program live in a store, addressed by position, each
    with the vector it owns.  A member function reads the fields of the
    objects it is given and writes them in place. *)
Definition store : Type := list t.

Fixpoint store_set (h : store) (a : nat) (s : t) : store :=
  match h, a with
  | [], _ => []
  | _ :: h', O => s :: h'
  | x :: h', S a' => x :: store_set h' a' s
  end.

(** Reads a field of the object at [a]. *)
Definition load {X : Type} (h : store) (a : nat) (field : t -> X)
  : option X :=
  o <- nth_error h a ;; Some (field o).

(** Replaces the contents of the vector [m_fifo] of the object at [a]. *)
Definition store_fifo (h : store) (a : nat) (v : list Z) : option store :=
  o <- nth_error h a ;;
  Some (store_set h a {| m_fifo := v;
                         m_held_bits := m_held_bits o;
                         m_num_held_bits := m_num_held_bits o |}).

(** [this->insertAt(src, pos)] on two objects of the store, which the
    source does not require to differ.  The range inserted is the
    source's bytes at the call; the only write is to the vector of
    [this]. *)
Definition insertAt_in (h : store) (this src : nat) (pos : Z)
  : option store :=
  o <- nth_error h src ;;
  let src_bits := to_UInt (getNumberOfWrittenBits o) in
  _ <- assert (0 =? src_bits mod 8) ;;
  this_fifo <- load h this m_fifo ;;
  src_fifo <- load h src m_fifo ;;
  fifo <- vector_insert this_fifo (Z.to_nat pos) src_fifo ;;
  store_fifo h this fifo.

(** The calls of the writer's interface that add bits, and a run of
    them; [bits] counts the bits each call adds: the width of a field,
    or the padding an alignment needs in the state it is called in. *)
Inductive call : Type :=
| Write (uiBits uiNumberOfBits : Z)
| WriteAlignZero
| WriteAlignOne.

Definition do_call (s : t) (c : call) : option t :=
  match c with
  | Write v n => write s v n
  | WriteAlignZero => Some (writeAlignZero s)
  | WriteAlignOne => writeAlignOne s
  end.

Definition bits_of_call (s : t) (c : call) : Z :=
  match c with
  | Write _ n => n
  | WriteAlignZero | WriteAlignOne => getNumBitsUntilByteAligned s
  end.

(** Runs the calls in order; returns the final writer and the number of
    bits added, padding included. *)
Fixpoint run (s : t) (cs : list call) : option (t * Z) :=
  match cs with
  | [] => Some (s, 0)
  | c :: cs' =>
      s1 <- do_call s c ;;
      '(s2, n) <- run s1 cs' ;;
      Some (s2, bits_of_call s c + n)
  end.

(** Writes the fields [(value, width)] in order. *)
Fixpoint write_all (s : t) (fields : list (Z * Z)) : option t :=
  match fields with
  | [] => Some s
  | (v, n) :: fields' => s1 <- write s v n ;; write_all s1 fields'
  end.

End TComOutputBitstream.

(** ** The reader *)

Module TComInputBitstream.

Record t : Type := mk
  { m_fifo : list Z;          (* std::vector<uint8_t> *m_fifo, borrowed *)
    m_fifo_idx : Z;           (* unsigned int *)
    m_held_bits : Z;          (* unsigned char *)
    m_num_held_bits : Z }.    (* unsigned int *)

Definition create (buf : list Z) : t :=
  {| m_fifo := buf; m_fifo_idx := 0; m_held_bits := 0; m_num_held_bits := 0 |}.

(** Modelled from the spec: the header TComBitStream.h, which defines
    [getNumBitsLeft], is missing; the specification of [pseudoRead] calls
    it the bits remaining in the buffer: the held bits and the bytes from
    the cursor on. *)
Definition getNumBitsLeft (r : t) : Z :=
  8 * (size (m_fifo r) - m_fifo_idx r) + m_num_held_bits r.

(** The vector access [m_fifo[idx]]: an index outside the vector is a
    fault. *)
Definition at_ (fifo : list Z) (idx : Z) : option Z :=
  if (0 <=? idx) && (idx <? size fifo)
  then nth_error fifo (Z.to_nat idx) else None.

(** The [switch (num_bytes_to_load)] of [read]; the cases fall through,
    and there is no default.  Each case reads the byte at [m_fifo_idx++].
    Returns [aligned_word], the cursor and the indices read, in order. *)
Definition read_switch (fifo : list Z) (idx : Z) (num_bytes_to_load : Z)
  : option (Z * Z * list Z) :=
  let case0 '(aligned_word, idx, tr) :=
    b <- at_ fifo idx ;;
    Some (Z.lor aligned_word b, to_UInt (idx + 1), tr ++ [idx]) in
  let case1 '(aligned_word, idx, tr) :=
    b <- at_ fifo idx ;;
    case0 (Z.lor aligned_word (to_UInt (Z.shiftl b 8)),
           to_UInt (idx + 1), tr ++ [idx]) in
  let case2 '(aligned_word, idx, tr) :=
    b <- at_ fifo idx ;;
    case1 (Z.lor aligned_word (to_UInt (Z.shiftl b 16)),
           to_UInt (idx + 1), tr ++ [idx]) in
  let case3 '(aligned_word, idx, tr) :=
    b <- at_ fifo idx ;;
    case2 (to_UInt (Z.shiftl b 24), to_UInt (idx + 1), tr ++ [idx]) in
  match num_bytes_to_load with
  | 3 => case3 (0, idx, [])
  | 2 => case2 (0, idx, [])
  | 1 => case1 (0, idx, [])
  | 0 => case0 (0, idx, [])
  | _ => Some (0, idx, [])
  end.

(** [read], returning [ruiBits], the reader after the call, and the
    indices of [m_fifo] the call has read. *)
Definition read_traced (r : t) (uiNumberOfBits : Z)
  : option (Z * t * list Z) :=
  _ <- assert (uiNumberOfBits <=? 32) ;;
  if uiNumberOfBits <=? m_num_held_bits r then
    let retval :=
      to_UInt (Z.shiftr (m_held_bits r)
                        (to_UInt (m_num_held_bits r - uiNumberOfBits))) in
    let retval :=
      Z.land retval (to_UInt (Z.lnot (Z.shiftl 255 uiNumberOfBits))) in
    Some (retval,
          {| m_fifo := m_fifo r;
             m_fifo_idx := m_fifo_idx r;
             m_held_bits := m_held_bits r;
             m_num_held_bits := to_UInt (m_num_held_bits r - uiNumberOfBits) |},
          [])
  else
    let uiNumberOfBits := to_UInt (uiNumberOfBits - m_num_held_bits r) in
    let retval :=
      to_UInt (Z.land (m_held_bits r)
                      (Z.lnot (Z.shiftl 255 (m_num_held_bits r)))) in
    let retval := to_UInt (Z.shiftl retval uiNumberOfBits) in
    let num_bytes_to_load := Z.shiftr (to_UInt (uiNumberOfBits - 1)) 3 in
    _ <- assert (to_UInt (m_fifo_idx r + num_bytes_to_load) <? size (m_fifo r)) ;;
    '(aligned_word, idx, tr) <-
       read_switch (m_fifo r) (m_fifo_idx r) num_bytes_to_load ;;
    let next_num_held_bits := to_UInt (32 - uiNumberOfBits) mod 8 in
    let retval := Z.lor retval (Z.shiftr aligned_word next_num_held_bits) in
    Some (retval,
          {| m_fifo := m_fifo r;
             m_fifo_idx := idx;
             m_held_bits := to_uint8 aligned_word;
             m_num_held_bits := next_num_held_bits |},
          tr).

Definition read (r : t) (uiNumberOfBits : Z) : option (Z * t) :=
  '(ruiBits, r', _) <- read_traced r uiNumberOfBits ;; Some (ruiBits, r').

Definition pseudoRead (r : t) (uiNumberOfBits : Z) : option (Z * t) :=
  let saved_num_held_bits := m_num_held_bits r in
  let saved_held_bits := to_uint8 (m_held_bits r) in
  let saved_fifo_idx := m_fifo_idx r in
  let num_bits_to_read :=
    to_UInt (Z.min uiNumberOfBits (getNumBitsLeft r)) in
  '(ruiBits, r1) <- read r num_bits_to_read ;;
  let ruiBits :=
    to_UInt (Z.shiftl ruiBits (to_UInt (uiNumberOfBits - num_bits_to_read))) in
  Some (ruiBits,
        {| m_fifo := m_fifo r1;
           m_fifo_idx := saved_fifo_idx;
           m_held_bits := saved_held_bits;
           m_num_held_bits := saved_num_held_bits |}).

(** Reads fields of the widths given, in order. *)
Fixpoint read_all (r : t) (widths : list Z) : option (list Z * t) :=
  match widths with
  | [] => Some ([], r)
  | n :: widths' =>
      '(v, r1) <- read r n ;;
      '(vs, r2) <- read_all r1 widths' ;;
      Some (v :: vs, r2)
  end.

End TComInputBitstream.

Module W := TComOutputBitstream.
Module R := TComInputBitstream.

(** ** The bit string behind a state

    The properties are stated on the bits a state stands for.  A byte
    sequence is read as one big-endian number; a writer stands for the
    number formed by all the bits written so far, a reader for the number
    formed by the bits not yet consumed. *)

Definition is_byte (b : Z) : Prop := 0 <= b < 2 ^ 8.

Fixpoint be_value (l : list Z) : Z :=
  match l with
  | [] => 0
  | b :: l' => b * 2 ^ (8 * size l') + be_value l'
  end.

(** A writer as the data model has it: bytes in the buffer, 0 to 7 held
    bits, left-justified in [m_held_bits] above zero bits. *)
Definition wf_writer (s : W.t) : Prop :=
  Forall is_byte (W.m_fifo s) /\
  0 <= W.m_num_held_bits s <= 7 /\
  0 <= W.m_held_bits s < 2 ^ 8 /\
  W.m_held_bits s mod 2 ^ (8 - W.m_num_held_bits s) = 0.

Definition written_value (s : W.t) : Z :=
  be_value (W.m_fifo s) * 2 ^ W.m_num_held_bits s
  + W.m_held_bits s / 2 ^ (8 - W.m_num_held_bits s).

(** A reader as the data model has it: a buffer of bytes whose length fits
    the 32-bit cursor, the cursor inside it, 0 to 7 held bits. *)
Definition wf_reader (r : R.t) : Prop :=
  Forall is_byte (R.m_fifo r) /\
  size (R.m_fifo r) < 2 ^ 32 /\
  0 <= R.m_fifo_idx r <= size (R.m_fifo r) /\
  0 <= R.m_num_held_bits r <= 7 /\
  0 <= R.m_held_bits r < 2 ^ 8.

Definition unread_value (r : R.t) : Z :=
  (R.m_held_bits r mod 2 ^ R.m_num_held_bits r)
  * 2 ^ (8 * (size (R.m_fifo r) - R.m_fifo_idx r))
  + be_value (skipn (Z.to_nat (R.m_fifo_idx r)) (R.m_fifo r)).

(** Fields [(value, width)]: their total width, and the number their
    concatenation forms, first field in the most significant position. *)
Fixpoint total_width (fields : list (Z * Z)) : Z :=
  match fields with
  | [] => 0
  | (_, n) :: fields' => n + total_width fields'
  end.

Fixpoint pack (fields : list (Z * Z)) : Z :=
  match fields with
  | [] => 0
  | (v, _) :: fields' => v * 2 ^ total_width fields' + pack fields'
  end.

(** A field of the round-trip law: width in [1,32], value in its low
    [width] bits. *)
Definition valid_field (f : Z * Z) : Prop :=
  1 <= snd f <= 32 /\ 0 <= fst f < 2 ^ snd f.

(** A field within the contract of [write]: width in [0,32], value in its
    low [width] bits. *)
Definition field_in_contract (f : Z * Z) : Prop :=
  0 <= snd f <= 32 /\ 0 <= fst f < 2 ^ snd f.

(** A call within its contract: width in [0,32], value in its low
    [width] bits. *)
Definition valid_call (c : W.call) : Prop :=
  match c with
  | W.Write v n => 0 <= n <= 32 /\ 0 <= v < 2 ^ n
  | W.WriteAlignZero | W.WriteAlignOne => True
  end.

Definition is_align (c : W.call) : bool :=
  match c with
  | W.Write _ _ => false
  | W.WriteAlignZero | W.WriteAlignOne => true
  end.

(** [pseudoRead] then [read]: the lookahead leaves the reader as it was,
    and the read that follows returns the value the lookahead returned. *)
Definition lookahead_then_read_agree (r : R.t) (numBits : Z) : Prop :=
  exists v r1 r2,
    R.pseudoRead r numBits = Some (v, r1) /\ r1 = r /\
    R.read r1 numBits = Some (v, r2).

(** The indices [idx], [idx + 1], ..., [idx + n - 1]. *)
Definition indices_from (idx : Z) (n : nat) : list Z :=
  map (fun i => idx + Z.of_nat i) (seq 0 n).

(** The total of a list of widths. *)
Fixpoint sum_widths (ws : list Z) : Z :=
  match ws with
  | [] => 0
  | n :: ws' => n + sum_widths ws'
  end.

(** The bits a reader has consumed: the bytes loaded, less the bits of the
    last one still held. *)
Definition bits_consumed (r : R.t) : Z :=
  8 * R.m_fifo_idx r - R.m_num_held_bits r.

(** * Proofs *)

(** ** Arithmetic of the fixed-width operations *)

Lemma pow2_pos (n : Z) : 0 <= n -> 0 < 2 ^ n.
Proof. intros; apply Z.pow_pos_nonneg; lia. Qed.

Lemma pow2_split (a b : Z) : 0 <= a -> 0 <= b -> 2 ^ (a + b) = 2 ^ a * 2 ^ b.
Proof. intros; apply Z.pow_add_r; assumption. Qed.

Lemma pow2_le (a b : Z) : 0 <= a <= b -> 2 ^ a <= 2 ^ b.
Proof. intros; apply Z.pow_le_mono_r; lia. Qed.

Lemma to_UInt_small (x : Z) : 0 <= x < 2 ^ 32 -> to_UInt x = x.
Proof. intros; apply Z.mod_small; assumption. Qed.

Lemma to_uint8_small (x : Z) : 0 <= x < 2 ^ 8 -> to_uint8 x = x.
Proof. intros; apply Z.mod_small; assumption. Qed.

Lemma to_uint8_to_UInt (x : Z) : to_uint8 (to_UInt x) = to_uint8 x.
Proof.
  unfold to_uint8, to_UInt.
  change (2 ^ 32) with 4294967296; change (2 ^ 8) with 256.
  Z.div_mod_to_equations; lia.
Qed.

Lemma testbit_small (x m i : Z) :
  0 <= x < 2 ^ m -> m <= i -> Z.testbit x i = false.
Proof.
  intros Hx Hi.
  destruct (Z.eq_dec x 0) as [->|Hne]; [apply Z.bits_0|].
  apply Z.bits_above_log2; [lia|].
  assert (0 <= m) by (destruct (Z.le_gt_cases 0 m); [assumption|];
                      rewrite Z.pow_neg_r in Hx; lia).
  assert (Z.log2 x < m) by (apply Z.log2_lt_pow2; lia).
  lia.
Qed.

(** Two words that occupy disjoint bit ranges: OR is addition. *)
Lemma lor_add_disjoint (b a m : Z) :
  0 <= m -> 0 <= a < 2 ^ m -> Z.lor (b * 2 ^ m) a = b * 2 ^ m + a.
Proof.
  intros Hm Ha.
  rewrite <- Z.add_lor_land.
  replace (Z.land (b * 2 ^ m) a) with 0; [lia|].
  symmetry; apply Z.bits_inj'; intros i Hi.
  rewrite Z.land_spec, Z.bits_0.
  destruct (Z.lt_ge_cases i m).
  - rewrite Z.mul_pow2_bits_low by lia. reflexivity.
  - rewrite (testbit_small a m i) by lia. apply andb_false_r.
Qed.

(** The mask [~(0xff << n)] keeps the low [n] bits of a word below
    [2^(n+8)]. *)
Lemma land_lnot_ff (x n : Z) :
  0 <= n -> 0 <= x < 2 ^ (n + 8) ->
  Z.land x (Z.lnot (Z.shiftl 255 n)) = x mod 2 ^ n.
Proof.
  intros Hn Hx.
  apply Z.bits_inj'; intros i Hi.
  rewrite Z.land_spec, Z.lnot_spec, Z.shiftl_spec by lia.
  destruct (Z.lt_ge_cases i n).
  - rewrite Z.mod_pow2_bits_low, (Z.testbit_neg_r _ (i - n)) by lia.
    apply andb_true_r.
  - rewrite Z.mod_pow2_bits_high by lia.
    destruct (Z.lt_ge_cases i (n + 8)).
    + change 255 with (Z.ones 8).
      rewrite Z.testbit_ones_nonneg by lia.
      replace (i - n <? 8) with true by (symmetry; apply Z.ltb_lt; lia).
      apply andb_false_r.
    + rewrite (testbit_small x (n + 8) i) by lia. reflexivity.
Qed.

Lemma land_to_UInt_r (x y : Z) :
  0 <= x < 2 ^ 32 -> Z.land x (to_UInt y) = Z.land x y.
Proof.
  intros Hx. unfold to_UInt.
  rewrite <- Z.land_ones by lia.
  rewrite (Z.land_comm y), Z.land_assoc, Z.land_ones by lia.
  rewrite Z.mod_small by assumption. reflexivity.
Qed.

(** With no held bit, the mask of [read] clears the whole held byte: the
    shift [retval <<= uiNumberOfBits] by 32 is applied to zero. *)
Lemma land_lnot_ff_0 (x : Z) :
  0 <= x < 2 ^ 8 -> Z.land x (Z.lnot (Z.shiftl 255 0)) = 0.
Proof.
  intros Hx. rewrite land_lnot_ff by (simpl; lia).
  apply Z.mod_1_r.
Qed.

(** [x & ~7] on the small counts of [write]. *)
Lemma land_not7 (x : Z) :
  0 <= x < 2 ^ 32 ->
  Z.land x (to_UInt (Z.lnot (Z.shiftl 1 3 - 1))) = 8 * (x / 8).
Proof.
  intros Hx.
  rewrite land_to_UInt_r by assumption.
  change (Z.shiftl 1 3 - 1) with (Z.ones 3).
  rewrite <- Z.ldiff_land, Z.ldiff_ones_r by lia.
  rewrite Z.shiftr_div_pow2, Z.shiftl_mul_pow2 by lia.
  change (2 ^ 3) with 8. lia.
Qed.

(** ** Big-endian byte sequences *)

Lemma size_nonneg (l : list Z) : 0 <= size l.
Proof. unfold size; lia. Qed.

Lemma size_app (l l' : list Z) : size (l ++ l') = size l + size l'.
Proof. unfold size; rewrite length_app; lia. Qed.

Lemma size_cons (b : Z) (l : list Z) : size (b :: l) = 1 + size l.
Proof. unfold size; simpl length; lia. Qed.

Lemma be_value_bounds (l : list Z) :
  Forall is_byte l -> 0 <= be_value l < 2 ^ (8 * size l).
Proof.
  induction 1 as [|b l Hb Hl IH]; [simpl; lia|].
  cbn [be_value]. rewrite size_cons.
  pose proof (size_nonneg l).
  replace (8 * (1 + size l)) with (8 + 8 * size l) by lia.
  rewrite pow2_split by lia.
  unfold is_byte in Hb.
  pose proof (pow2_pos (8 * size l) ltac:(lia)). nia.
Qed.

Lemma be_value_app (l l' : list Z) :
  be_value (l ++ l') = be_value l * 2 ^ (8 * size l') + be_value l'.
Proof.
  induction l as [|b l IH]; [simpl; lia|].
  cbn [app be_value]. rewrite IH, size_app.
  pose proof (size_nonneg l); pose proof (size_nonneg l').
  replace (8 * (size l + size l')) with (8 * size l + 8 * size l') by lia.
  rewrite pow2_split by lia. ring.
Qed.

Lemma be_value_push_back (l : list Z) (x : Z) :
  be_value (push_back l x) = be_value l * 2 ^ 8 + to_uint8 x.
Proof.
  unfold push_back. rewrite be_value_app. cbn. lia.
Qed.

Lemma to_uint8_is_byte (x : Z) : is_byte (to_uint8 x).
Proof. unfold is_byte, to_uint8. apply Z.mod_pos_bound. lia. Qed.

Lemma Forall_push_back (l : list Z) (x : Z) :
  Forall is_byte l -> Forall is_byte (push_back l x).
Proof.
  intros H. unfold push_back. apply Forall_app; split; [assumption|].
  constructor; [apply to_uint8_is_byte | constructor].
Qed.

Lemma size_push_back (l : list Z) (x : Z) : size (push_back l x) = size l + 1.
Proof. unfold push_back. rewrite size_app. reflexivity. Qed.

(** ** The writer *)

Lemma write_switch_spec (fifo : list Z) (k w : Z) :
  1 <= k <= 4 -> 0 <= w < 2 ^ (8 * k) -> Forall is_byte fifo ->
  Forall is_byte (W.write_switch fifo k w) /\
  size (W.write_switch fifo k w) = size fifo + k /\
  be_value (W.write_switch fifo k w) = be_value fifo * 2 ^ (8 * k) + w.
Proof.
  intros Hk Hw Hf.
  assert (Hcases : k = 1 \/ k = 2 \/ k = 3 \/ k = 4) by lia.
  destruct Hcases as [-> | [-> | [-> | ->]]]; cbv [W.write_switch];
    (split; [repeat apply Forall_push_back; assumption|]);
    (split; [rewrite ?size_push_back; lia|]);
    rewrite ?be_value_push_back, ?Z.shiftr_div_pow2 by lia;
    unfold to_uint8; simpl Z.mul in *;
    [ change (2 ^ 8) with 256 in *
    | change (2 ^ 8) with 256 in *; change (2 ^ 16) with 65536 in *
    | change (2 ^ 8) with 256 in *; change (2 ^ 16) with 65536 in *;
      change (2 ^ 24) with 16777216 in *
    | change (2 ^ 8) with 256 in *; change (2 ^ 16) with 65536 in *;
      change (2 ^ 24) with 16777216 in *;
      change (2 ^ 32) with 4294967296 in * ];
    Z.div_mod_to_equations; lia.
Qed.

(** The held byte is the held bits left-justified. *)
Lemma held_decompose (held nh : Z) :
  0 <= nh <= 7 -> 0 <= held < 2 ^ 8 -> held mod 2 ^ (8 - nh) = 0 ->
  let h := held / 2 ^ (8 - nh) in
  held = h * 2 ^ (8 - nh) /\ 0 <= h < 2 ^ nh.
Proof.
  intros Hnh Hh Hz h. subst h.
  pose proof (pow2_pos (8 - nh) ltac:(lia)) as Hp.
  pose proof (pow2_pos nh ltac:(lia)) as Hq.
  assert (E : held = held / 2 ^ (8 - nh) * 2 ^ (8 - nh)).
  { pose proof (Z.div_mod held (2 ^ (8 - nh)) ltac:(lia)). lia. }
  split; [exact E|].
  split; [apply Z.div_pos; lia|].
  apply Z.div_lt_upper_bound; [lia|].
  rewrite <- pow2_split by lia.
  replace (8 - nh + nh) with 8 by lia. lia.
Qed.

(** In a reachable state with no held bit the held byte is zero: the shift
    [m_held_bits << topword] by 32 is applied to zero. *)
Lemma held_zero_when_aligned (s : W.t) :
  wf_writer s -> W.m_num_held_bits s = 0 -> W.m_held_bits s = 0.
Proof.
  intros (_ & _ & Hh & Hz) E. rewrite E in Hz.
  rewrite Z.mod_small in Hz; [assumption|]. simpl (8 - 0). lia.
Qed.

Lemma next_held_bits_eq (v next : Z) :
  0 <= next <= 7 ->
  to_uint8 (to_UInt (Z.shiftl v (to_UInt (8 - next))))
  = (v mod 2 ^ next) * 2 ^ (8 - next).
Proof.
  intros Hn.
  rewrite (to_UInt_small (8 - next)) by lia.
  rewrite to_uint8_to_UInt, Z.shiftl_mul_pow2 by lia.
  unfold to_uint8.
  replace (2 ^ 8) with (2 ^ next * 2 ^ (8 - next))
    by (rewrite <- pow2_split by lia; f_equal; lia).
  pose proof (pow2_pos next ltac:(lia)).
  pose proof (pow2_pos (8 - next) ltac:(lia)).
  rewrite Z.mul_mod_distr_r by lia. reflexivity.
Qed.

Lemma div_pow2_bound (v n p : Z) :
  0 <= p <= n -> 0 <= v < 2 ^ n -> 0 <= v / 2 ^ p < 2 ^ (n - p).
Proof.
  intros Hp Hv.
  pose proof (pow2_pos p ltac:(lia)).
  split; [apply Z.div_pos; lia|].
  apply Z.div_lt_upper_bound; [lia|].
  rewrite <- pow2_split by lia. replace (p + (n - p)) with n by lia. lia.
Qed.

(** One [write] within its contract: it does not fault, keeps the writer
    well formed, adds [n] bits, and appends the field to the bit string. *)
Lemma write_spec (s : W.t) (v n : Z) :
  wf_writer s -> 0 <= n <= 32 -> 0 <= v < 2 ^ n ->
  exists s', W.write s v n = Some s' /\ wf_writer s' /\
    W.getNumberOfWrittenBits s' = W.getNumberOfWrittenBits s + n /\
    written_value s' = written_value s * 2 ^ n + v.
Proof.
  destruct s as [fifo held nh].
  unfold wf_writer, written_value, W.getNumberOfWrittenBits, W.write;
    cbn [W.m_fifo W.m_held_bits W.m_num_held_bits].
  intros (Hf & Hnh & Hh & Hz) Hn Hv.
  destruct (held_decompose held nh Hnh Hh Hz) as [Eh Hhb].
  set (h := held / 2 ^ (8 - nh)) in *. clearbody h. clear Hz. subst held.
  replace (n <=? 32) with true by (symmetry; apply Z.leb_le; lia).
  cbn [assert].
  rewrite (to_UInt_small (n + nh)) by lia.
  rewrite Z.shiftr_div_pow2 by lia. change (2 ^ 3) with 8.
  pose proof (Z.div_mod (n + nh) 8 ltac:(lia)) as Hdm.
  pose proof (Z.mod_pos_bound (n + nh) 8 ltac:(lia)) as Hnext.
  set (next := (n + nh) mod 8) in *.
  set (k := (n + nh) / 8) in *.
  rewrite next_held_bits_eq by lia.
  pose proof (pow2_pos n ltac:(lia)) as HA.
  pose proof (pow2_pos nh ltac:(lia)) as HB.
  pose proof (pow2_pos (8 - next) ltac:(lia)) as HP.
  pose proof (pow2_pos next ltac:(lia)) as HN.
  destruct (Z.eqb_spec k 0) as [Ek | Ek].
  - (* fewer than 8 bits in all: nothing is written out *)
    assert (Enext : next = nh + n) by lia.
    assert (EN : 2 ^ next = 2 ^ nh * 2 ^ n)
      by (rewrite Enext; apply pow2_split; lia).
    assert (EQ : 2 ^ (8 - nh) = 2 ^ n * 2 ^ (8 - next))
      by (rewrite <- pow2_split by lia; f_equal; lia).
    assert (E8 : 2 ^ 8 = 2 ^ next * 2 ^ (8 - next))
      by (rewrite <- pow2_split by lia; f_equal; lia).
    rewrite (Z.mod_small v (2 ^ next)) by nia.
    rewrite lor_add_disjoint by (try lia; rewrite EQ; nia).
    assert (Eheld : h * 2 ^ (8 - nh) + v * 2 ^ (8 - next)
                    = (h * 2 ^ n + v) * 2 ^ (8 - next))
      by (rewrite EQ; ring).
    rewrite Eheld.
    assert (G1 : 0 <= (h * 2 ^ n + v) * 2 ^ (8 - next))
      by (apply Z.mul_nonneg_nonneg; nia).
    assert (G2 : (h * 2 ^ n + v) * 2 ^ (8 - next) < 2 ^ 8)
      by (rewrite E8, EN; apply Z.mul_lt_mono_pos_r; nia).
    assert (G3 : ((h * 2 ^ n + v) * 2 ^ (8 - next)) mod 2 ^ (8 - next) = 0)
      by (apply Z.mod_mul; lia).
    rewrite to_uint8_small by lia.
    eexists; split; [reflexivity|].
    cbn [W.m_fifo W.m_held_bits W.m_num_held_bits].
    repeat split; try assumption; try lia.
    rewrite Z.div_mul by lia. rewrite EN. ring.
  - (* at least one byte is completed *)
    assert (Hk : 1 <= k <= 4) by lia.
    assert (Hge : 1 <= n - next) by lia.
    rewrite (to_UInt_small (n - next)) by lia.
    rewrite land_not7 by lia.
    rewrite Z.shiftl_mul_pow2
      by (pose proof (Z.div_pos (n - next) 8); lia).
    rewrite Z.shiftr_div_pow2 by lia.
    assert (Etop : h * 2 ^ (8 - nh) * 2 ^ (8 * ((n - next) / 8))
                   = h * 2 ^ (n - next)).
    { destruct (Z.eq_dec nh 0) as [E0 | E0].
      - subst nh. simpl (2 ^ 0) in Hhb. replace h with 0 by lia. lia.
      - replace ((n - next) / 8) with (k - 1)
          by (apply (Z.div_unique _ _ _ (8 - nh)); lia).
        rewrite <- Z.mul_assoc, <- pow2_split by lia.
        do 2 f_equal. lia. }
    rewrite Etop.
    pose proof (div_pow2_bound v n next ltac:(lia) Hv) as Hq.
    rewrite lor_add_disjoint by lia.
    pose proof (pow2_pos (n - next) ltac:(lia)) as HA'.
    assert (E8k : 2 ^ (8 * k) = 2 ^ nh * 2 ^ (n - next))
      by (rewrite <- pow2_split by lia; f_equal; lia).
    assert (En : 2 ^ n = 2 ^ (n - next) * 2 ^ next)
      by (rewrite <- pow2_split by lia; f_equal; lia).
    assert (HW : 0 <= h * 2 ^ (n - next) + v / 2 ^ next < 2 ^ (8 * k))
      by (rewrite E8k; nia).
    assert (H32 : 2 ^ (8 * k) <= 2 ^ 32) by (apply pow2_le; lia).
    rewrite to_UInt_small by lia.
    destruct (write_switch_spec fifo k _ Hk HW Hf) as (Hf' & Hsz & Hbe).
    eexists; split; [reflexivity|].
    cbn [W.m_fifo W.m_held_bits W.m_num_held_bits].
    pose proof (Z.mod_pos_bound v (2 ^ next) HN) as Hr.
    assert (G1 : 0 <= v mod 2 ^ next * 2 ^ (8 - next))
      by (apply Z.mul_nonneg_nonneg; lia).
    assert (G2 : v mod 2 ^ next * 2 ^ (8 - next) < 2 ^ 8).
    { replace (2 ^ 8) with (2 ^ next * 2 ^ (8 - next))
        by (rewrite <- pow2_split by lia; f_equal; lia).
      apply Z.mul_lt_mono_pos_r; lia. }
    assert (G3 : (v mod 2 ^ next * 2 ^ (8 - next)) mod 2 ^ (8 - next) = 0)
      by (apply Z.mod_mul; lia).
    repeat split; try assumption; try lia.
    rewrite Z.div_mul by lia. rewrite Hbe, E8k.
    pose proof (Z.div_mod v (2 ^ next) ltac:(lia)) as Hv'.
    rewrite En. rewrite Hv' at 3. ring.
Qed.


Lemma padding_cases (nh : Z) :
  0 <= nh <= 7 ->
  (nh = 0 /\ (8 - nh) mod 8 = 0) \/ (1 <= nh /\ (8 - nh) mod 8 = 8 - nh).
Proof.
  intros H. destruct (Z.eq_dec nh 0) as [-> | Hne]; [left; split; reflexivity|].
  right; split; [lia|]. apply Z.mod_small; lia.
Qed.

(** [writeAlignZero] keeps the writer well formed, leaves no held bit, and
    appends the padding as zero bits. *)
Lemma writeAlignZero_spec (s : W.t) :
  wf_writer s ->
  let s' := W.writeAlignZero s in
  wf_writer s' /\ W.m_num_held_bits s' = 0 /\
  W.getNumberOfWrittenBits s'
  = W.getNumberOfWrittenBits s + W.getNumBitsUntilByteAligned s /\
  written_value s'
  = written_value s * 2 ^ W.getNumBitsUntilByteAligned s.
Proof.
  destruct s as [fifo held nh].
  unfold wf_writer, written_value, W.getNumberOfWrittenBits,
    W.getNumBitsUntilByteAligned, W.writeAlignZero;
    cbn [W.m_fifo W.m_held_bits W.m_num_held_bits].
  intros (Hf & Hnh & Hh & Hz).
  destruct (padding_cases nh Hnh) as [[-> Ep] | [Hpos Ep]]; rewrite Ep.
  - cbn [Z.eqb W.m_fifo W.m_held_bits W.m_num_held_bits].
    repeat split; try assumption; try lia.
  - replace (0 =? nh) with false by (symmetry; apply Z.eqb_neq; lia).
    cbn [W.m_fifo W.m_held_bits W.m_num_held_bits].
    destruct (held_decompose held nh Hnh Hh Hz) as [Eh Hhb].
    rewrite be_value_push_back, size_push_back, to_uint8_small by assumption.
    repeat split; try lia.
    + apply Forall_push_back; assumption.
    + change (2 ^ 0) with 1. change (0 / 2 ^ (8 - 0)) with 0.
      rewrite Eh at 1.
      replace (2 ^ 8) with (2 ^ nh * 2 ^ (8 - nh))
        by (rewrite <- pow2_split by lia; f_equal; lia).
      ring.
Qed.

Lemma writeAlignOne_spec (s : W.t) :
  wf_writer s ->
  exists s', W.writeAlignOne s = Some s' /\
    wf_writer s' /\ W.m_num_held_bits s' = 0 /\
    W.getNumberOfWrittenBits s'
    = W.getNumberOfWrittenBits s + W.getNumBitsUntilByteAligned s.
Proof.
  intros Hwf. unfold W.writeAlignOne.
  assert (Hnh : 0 <= W.m_num_held_bits s <= 7) by apply Hwf.
  assert (Hpad : 0 <= W.getNumBitsUntilByteAligned s <= 7)
    by (unfold W.getNumBitsUntilByteAligned;
        pose proof (Z.mod_pos_bound (8 - W.m_num_held_bits s) 8); lia).
  set (pad := W.getNumBitsUntilByteAligned s) in *.
  rewrite (to_UInt_small pad) by lia.
  rewrite Z.shiftl_mul_pow2, Z.mul_1_l by lia.
  pose proof (pow2_pos pad ltac:(lia)) as Hp.
  assert (H32 : 2 ^ pad <= 2 ^ 32) by (apply pow2_le; lia).
  rewrite to_UInt_small by lia.
  destruct (write_spec s (2 ^ pad - 1) pad Hwf ltac:(lia) ltac:(lia))
    as (s' & E & Hwf' & Hbits & _).
  exists s'. repeat split; try assumption; try apply Hwf'.
  assert (Hnh' : 0 <= W.m_num_held_bits s' <= 7) by apply Hwf'.
  revert Hbits. unfold W.getNumberOfWrittenBits.
  destruct (padding_cases _ Hnh) as [[E0 Ep] | [Hpos Ep]];
    subst pad; unfold W.getNumBitsUntilByteAligned in *;
    rewrite Ep in *; lia.
Qed.

(** ** Sequences of fields *)

Lemma valid_field_in_contract (fields : list (Z * Z)) :
  Forall valid_field fields -> Forall field_in_contract fields.
Proof.
  apply Forall_impl. intros [v n]; unfold valid_field, field_in_contract.
  simpl. lia.
Qed.

Lemma total_width_nonneg (fields : list (Z * Z)) :
  Forall field_in_contract fields -> 0 <= total_width fields.
Proof.
  induction 1 as [|[v n] l [Hn _] _ IH]; simpl in *; lia.
Qed.

Lemma pack_bounds (fields : list (Z * Z)) :
  Forall field_in_contract fields ->
  0 <= pack fields < 2 ^ total_width fields.
Proof.
  induction 1 as [|[v n] l [Hn Hv] Hl IH]; simpl in *; [lia|].
  pose proof (total_width_nonneg l Hl).
  rewrite pow2_split by lia.
  pose proof (pow2_pos (total_width l) ltac:(lia)). nia.
Qed.

(** Writing the fields in order appends their concatenation. *)
Lemma write_all_spec (fields : list (Z * Z)) :
  Forall field_in_contract fields ->
  forall s, wf_writer s ->
  exists s', W.write_all s fields = Some s' /\ wf_writer s' /\
    W.getNumberOfWrittenBits s'
    = W.getNumberOfWrittenBits s + total_width fields /\
    written_value s' = written_value s * 2 ^ total_width fields + pack fields.
Proof.
  induction 1 as [|[v n] l [Hn Hv] Hl IH]; intros s Hwf; simpl in *.
  - exists s. split; [reflexivity|]. split; [assumption|].
    split; [lia|]. change (2 ^ 0) with 1. lia.
  - destruct (write_spec s v n Hwf Hn Hv) as (s1 & E1 & Hwf1 & Hb1 & Hv1).
    destruct (IH s1 Hwf1) as (s2 & E2 & Hwf2 & Hb2 & Hv2).
    exists s2. rewrite E1. split; [assumption|]. split; [assumption|].
    split; [lia|].
    rewrite Hv2, Hv1.
    pose proof (total_width_nonneg l Hl).
    rewrite pow2_split by lia. ring.
Qed.

(** ** The reader *)

Lemma size_skipn (l : list Z) (idx : Z) :
  0 <= idx <= size l -> size (skipn (Z.to_nat idx) l) = size l - idx.
Proof. unfold size. intros H. rewrite length_skipn. lia. Qed.

Lemma at_skipn (fifo : list Z) (idx i b : Z) :
  0 <= idx -> 0 <= i ->
  nth_error (skipn (Z.to_nat idx) fifo) (Z.to_nat i) = Some b ->
  R.at_ fifo (idx + i) = Some b.
Proof.
  intros Hidx Hi E. rewrite nth_error_skipn in E.
  assert (Hlt : (Z.to_nat idx + Z.to_nat i < length fifo)%nat)
    by (apply nth_error_Some; congruence).
  unfold R.at_, size.
  replace (0 <=? idx + i) with true by (symmetry; apply Z.leb_le; lia).
  replace (idx + i <? Z.of_nat (length fifo)) with true
    by (symmetry; apply Z.ltb_lt; lia).
  cbn [andb]. rewrite Z2Nat.inj_add by lia. exact E.
Qed.

Lemma lor_add_aligned (x a m : Z) :
  0 <= m -> x mod 2 ^ m = 0 -> 0 <= a < 2 ^ m -> Z.lor x a = x + a.
Proof.
  intros Hm Hx Ha.
  pose proof (pow2_pos m Hm).
  assert (E : x = x / 2 ^ m * 2 ^ m)
    by (pose proof (Z.div_mod x (2 ^ m) ltac:(lia)); lia).
  rewrite E. apply lor_add_disjoint; assumption.
Qed.

Lemma shiftl_byte (b k : Z) :
  is_byte b -> 0 <= k <= 24 -> to_UInt (Z.shiftl b k) = b * 2 ^ k.
Proof.
  unfold is_byte. intros Hb Hk.
  rewrite Z.shiftl_mul_pow2 by lia.
  apply to_UInt_small.
  pose proof (pow2_pos k ltac:(lia)).
  assert (2 ^ 8 * 2 ^ k <= 2 ^ 32)
    by (rewrite <- pow2_split by lia; apply pow2_le; lia).
  nia.
Qed.

Lemma length_indices_from (idx : Z) (n : nat) :
  length (indices_from idx n) = n.
Proof. unfold indices_from. rewrite length_map, length_seq. reflexivity. Qed.

Ltac lor_side m :=
  first [ lia
        | let c := eval cbv in (2 ^ m) in
          change (2 ^ m) with c; Z.div_mod_to_equations; lia ].

Ltac lor_is_add m :=
  first [ rewrite (lor_add_aligned (_ * _) _ m) by lor_side m
        | rewrite (lor_add_aligned (_ + _) _ m) by lor_side m ].

Lemma indices_from_4 (idx : Z) :
  indices_from idx 1 = [idx] /\
  indices_from idx 2 = [idx; idx + 1] /\
  indices_from idx 3 = [idx; idx + 1; idx + 1 + 1] /\
  indices_from idx 4 = [idx; idx + 1; idx + 1 + 1; idx + 1 + 1 + 1].
Proof.
  unfold indices_from; cbn [seq map].
  repeat split; repeat (f_equal; try lia).
Qed.

(** The switch of [read] on [j + 1] bytes that are in the buffer: it loads
    them, most significant first. *)
Lemma read_switch_spec (fifo : list Z) (idx j : Z) (bs rest : list Z) :
  0 <= idx -> size fifo < 2 ^ 32 -> 0 <= j <= 3 ->
  skipn (Z.to_nat idx) fifo = bs ++ rest ->
  size bs = j + 1 -> Forall is_byte bs ->
  R.read_switch fifo idx j
  = Some (be_value bs, idx + j + 1, indices_from idx (Z.to_nat (j + 1))).
Proof.
  intros Hidx Hsz Hj Hskip Hlen Hbs.
  assert (Hin : idx + j + 1 <= size fifo).
  { destruct (Z.le_gt_cases idx (size fifo)) as [Hle | Hgt].
    - pose proof (size_skipn fifo idx ltac:(lia)) as E.
      rewrite Hskip, size_app in E. pose proof (size_nonneg rest). lia.
    - rewrite skipn_all2 in Hskip by (unfold size in Hgt; lia).
      destruct bs; [unfold size in Hlen; simpl in Hlen; lia | discriminate]. }
  assert (Hat : forall i b, 0 <= i ->
             nth_error (bs ++ rest) (Z.to_nat i) = Some b ->
             R.at_ fifo (idx + i) = Some b)
    by (intros i b Hi E; apply at_skipn; [lia | lia | rewrite Hskip; exact E]).
  destruct (indices_from_4 idx) as (I1 & I2 & I3 & I4).
  assert (Hcases : j = 0 \/ j = 1 \/ j = 2 \/ j = 3) by lia.
  unfold size in Hlen.
  destruct Hcases as [-> | [-> | [-> | ->]]].
  - destruct bs as [|b0 [|]]; simpl in Hlen; try lia.
    pose proof (Hat 0 b0 ltac:(lia) eq_refl) as A0.
    rewrite Z.add_0_r in A0.
    cbv [R.read_switch]. rewrite A0.
    rewrite to_UInt_small by lia.
    change (Z.to_nat (0 + 1)) with 1%nat. rewrite I1.
    cbn. do 2 f_equal. f_equal; lia.
  - destruct bs as [|b0 [|b1 [|]]]; simpl in Hlen; try lia.
    pose proof (Hat 0 b0 ltac:(lia) eq_refl) as A0.
    pose proof (Hat 1 b1 ltac:(lia) eq_refl) as A1.
    rewrite Z.add_0_r in A0.
    cbv [R.read_switch]. rewrite A0.
    rewrite (to_UInt_small (idx + 1)) by lia. rewrite A1.
    rewrite (to_UInt_small (idx + 1 + 1)) by lia.
    inversion Hbs as [|? ? H0 Hbs1]; subst.
    inversion Hbs1 as [|? ? H1 _]; subst.
    rewrite shiftl_byte by (assumption || lia).
    unfold is_byte in *.
    change (Z.to_nat (1 + 1)) with 2%nat. rewrite I2.
    cbn [be_value size length Z.of_nat Pos.of_succ_nat Pos.succ Z.mul Pos.mul].
    rewrite Z.lor_0_l.
    rewrite (lor_add_disjoint b0 b1 8) by lia.
    cbn [app]. do 2 f_equal. f_equal; lia.
  - destruct bs as [|b0 [|b1 [|b2 [|]]]]; simpl in Hlen; try lia.
    pose proof (Hat 0 b0 ltac:(lia) eq_refl) as A0.
    pose proof (Hat 1 b1 ltac:(lia) eq_refl) as A1.
    pose proof (Hat 2 b2 ltac:(lia) eq_refl) as A2.
    rewrite Z.add_0_r in A0.
    replace (idx + 2) with (idx + 1 + 1) in A2 by lia.
    cbv [R.read_switch]. rewrite A0.
    rewrite (to_UInt_small (idx + 1)) by lia. rewrite A1.
    rewrite (to_UInt_small (idx + 1 + 1)) by lia. rewrite A2.
    rewrite (to_UInt_small (idx + 1 + 1 + 1)) by lia.
    inversion Hbs as [|? ? H0 Hbs1]; subst.
    inversion Hbs1 as [|? ? H1 Hbs2]; subst.
    inversion Hbs2 as [|? ? H2 _]; subst.
    rewrite !shiftl_byte by (assumption || lia).
    unfold is_byte in *.
    change (Z.to_nat (2 + 1)) with 3%nat. rewrite I3.
    cbn [be_value size length Z.of_nat Pos.of_succ_nat Pos.succ Z.mul Pos.mul].
    rewrite Z.lor_0_l.
    change (2 ^ 8) with 256 in *; change (2 ^ 16) with 65536 in *.
    lor_is_add 16. lor_is_add 8.
    cbn [app]. do 2 f_equal. f_equal; lia.
  - destruct bs as [|b0 [|b1 [|b2 [|b3 [|]]]]]; simpl in Hlen; try lia.
    pose proof (Hat 0 b0 ltac:(lia) eq_refl) as A0.
    pose proof (Hat 1 b1 ltac:(lia) eq_refl) as A1.
    pose proof (Hat 2 b2 ltac:(lia) eq_refl) as A2.
    pose proof (Hat 3 b3 ltac:(lia) eq_refl) as A3.
    rewrite Z.add_0_r in A0.
    replace (idx + 2) with (idx + 1 + 1) in A2 by lia.
    replace (idx + 3) with (idx + 1 + 1 + 1) in A3 by lia.
    cbv [R.read_switch]. rewrite A0.
    rewrite (to_UInt_small (idx + 1)) by lia. rewrite A1.
    rewrite (to_UInt_small (idx + 1 + 1)) by lia. rewrite A2.
    rewrite (to_UInt_small (idx + 1 + 1 + 1)) by lia. rewrite A3.
    rewrite (to_UInt_small (idx + 1 + 1 + 1 + 1)) by lia.
    inversion Hbs as [|? ? H0 Hbs1]; subst.
    inversion Hbs1 as [|? ? H1 Hbs2]; subst.
    inversion Hbs2 as [|? ? H2 Hbs3]; subst.
    inversion Hbs3 as [|? ? H3 _]; subst.
    rewrite !shiftl_byte by (assumption || lia).
    unfold is_byte in *.
    change (Z.to_nat (3 + 1)) with 4%nat. rewrite I4.
    cbn [be_value size length Z.of_nat Pos.of_succ_nat Pos.succ Z.mul Pos.mul].
    change (2 ^ 8) with 256 in *; change (2 ^ 16) with 65536 in *;
      change (2 ^ 24) with 16777216 in *.
    lor_is_add 24. lor_is_add 16. lor_is_add 8.
    cbn [app]. do 2 f_equal. f_equal; lia.
Qed.


Lemma Forall_skipn_bytes (l : list Z) (n : nat) :
  Forall is_byte l -> Forall is_byte (skipn n l).
Proof.
  intros H. rewrite <- (firstn_skipn n l) in H.
  apply Forall_app in H. apply H.
Qed.

Lemma Forall_firstn_bytes (l : list Z) (n : nat) :
  Forall is_byte l -> Forall is_byte (firstn n l).
Proof.
  intros H. rewrite <- (firstn_skipn n l) in H.
  apply Forall_app in H. apply H.
Qed.

(** The bits not yet consumed fit the count [getNumBitsLeft] gives. *)
Lemma unread_bounds (r : R.t) :
  wf_reader r -> 0 <= unread_value r < 2 ^ R.getNumBitsLeft r.
Proof.
  destruct r as [fifo idx held nh].
  unfold wf_reader, unread_value, R.getNumBitsLeft;
    cbn [R.m_fifo R.m_fifo_idx R.m_held_bits R.m_num_held_bits].
  intros (Hf & Hsz & Hidx & Hnh & Hh).
  pose proof (be_value_bounds _ (Forall_skipn_bytes fifo (Z.to_nat idx) Hf))
    as Hbe.
  rewrite size_skipn in Hbe by lia.
  rewrite pow2_split by lia.
  pose proof (Z.mod_pos_bound held (2 ^ nh) (pow2_pos nh ltac:(lia))).
  pose proof (pow2_pos (8 * (size fifo - idx)) ltac:(lia)).
  nia.
Qed.

Lemma mod_pow2_mod_pow2 (x a b : Z) :
  0 <= a <= b -> (x mod 2 ^ b) mod 2 ^ a = x mod 2 ^ a.
Proof.
  intros H. apply Z.mod_mod_divide.
  exists (2 ^ (b - a)). rewrite <- pow2_split by lia. f_equal. lia.
Qed.

(** One [read] of bits that are there: it does not fault, returns the
    leading [n] unread bits, and loads the bytes at the indices from the
    cursor on. *)
Lemma read_traced_spec (r : R.t) (n : Z) :
  wf_reader r -> 0 <= n <= 32 -> n <= R.getNumBitsLeft r ->
  exists v r' tr, R.read_traced r n = Some (v, r', tr) /\
    wf_reader r' /\ R.m_fifo r' = R.m_fifo r /\
    R.getNumBitsLeft r' = R.getNumBitsLeft r - n /\
    0 <= v < 2 ^ n /\
    unread_value r = v * 2 ^ R.getNumBitsLeft r' + unread_value r' /\
    tr = indices_from (R.m_fifo_idx r) (length tr) /\
    R.m_fifo_idx r' = R.m_fifo_idx r + size tr /\
    R.m_fifo_idx r + size tr <= size (R.m_fifo r).
Proof.
  destruct r as [fifo idx held nh].
  unfold wf_reader, unread_value, R.getNumBitsLeft, R.read_traced;
    cbn [R.m_fifo R.m_fifo_idx R.m_held_bits R.m_num_held_bits].
  intros (Hf & Hsz & Hidx & Hnh & Hh) Hn Hleft.
  replace (n <=? 32) with true by (symmetry; apply Z.leb_le; lia).
  cbn [assert].
  pose proof (pow2_pos n ltac:(lia)) as HPn.
  pose proof (pow2_pos nh ltac:(lia)) as HPnh.
  set (rem := size fifo - idx) in *.
  pose proof (pow2_pos (8 * rem) ltac:(lia)) as HPrem.
  destruct (Z.leb_spec n nh) as [Hle | Hgt].
  - (* served from the held bits *)
    rewrite (to_UInt_small (nh - n)) by lia.
    rewrite Z.shiftr_div_pow2 by lia.
    pose proof (pow2_pos (nh - n) ltac:(lia)) as HPd.
    assert (Hq : 0 <= held / 2 ^ (nh - n) < 2 ^ 8).
    { split; [apply Z.div_pos; lia|].
      apply Z.div_lt_upper_bound; [lia|]. nia. }
    rewrite to_UInt_small by lia.
    rewrite land_to_UInt_r by lia.
    rewrite land_lnot_ff
      by (try lia; rewrite pow2_split by lia; nia).
    do 3 eexists. split; [reflexivity|].
    cbn [R.m_fifo R.m_fifo_idx R.m_held_bits R.m_num_held_bits length].
    pose proof (Z.mod_pos_bound (held / 2 ^ (nh - n)) (2 ^ n) HPn).
    split; [repeat split; try assumption; lia|].
    split; [reflexivity|]. split; [fold rem; lia|].
    split; [lia|].
    split; [|split; [reflexivity|change (size []) with 0; split; lia]].
    fold rem.
    replace (8 * rem + (nh - n)) with (nh - n + 8 * rem) by lia.
    rewrite pow2_split by lia.
    replace (2 ^ nh) with (2 ^ (nh - n) * 2 ^ n)
      by (rewrite <- pow2_split by lia; f_equal; lia).
    rewrite Z.rem_mul_r by lia. ring.
  - (* all held bits, then whole bytes from the buffer *)
    rewrite (to_UInt_small (n - nh)) by lia.
    assert (H8 : 2 ^ 8 <= 2 ^ (nh + 8)) by (apply pow2_le; lia).
    rewrite (land_lnot_ff held nh) by lia.
    pose proof (Z.mod_pos_bound held (2 ^ nh) HPnh) as Hhm.
    set (hm := held mod 2 ^ nh) in *.
    pose proof (pow2_pos (n - nh) ltac:(lia)) as HPm.
    assert (H2n : 2 ^ n = 2 ^ nh * 2 ^ (n - nh))
      by (rewrite <- pow2_split by lia; f_equal; lia).
    assert (Hn32 : 2 ^ n <= 2 ^ 32) by (apply pow2_le; lia).
    assert (Hnh32 : 2 ^ nh <= 2 ^ 32) by (apply pow2_le; lia).
    rewrite (to_UInt_small hm) by lia.
    rewrite Z.shiftl_mul_pow2 by lia.
    rewrite (to_UInt_small (hm * 2 ^ (n - nh))) by nia.
    rewrite (to_UInt_small (n - nh - 1)) by lia.
    rewrite Z.shiftr_div_pow2 by lia. change (2 ^ 3) with 8.
    assert (Hj : 0 <= (n - nh - 1) / 8 <= 3 /\
                 8 * ((n - nh - 1) / 8) + 1 <= n - nh
                 <= 8 * ((n - nh - 1) / 8) + 8)
      by (Z.div_mod_to_equations; lia).
    set (j := (n - nh - 1) / 8) in *.
    assert (Hjrem : j < rem) by lia.
    rewrite (to_UInt_small (idx + j)) by lia.
    replace (idx + j <? size fifo) with true
      by (symmetry; apply Z.ltb_lt; lia).
    cbn [assert].
    set (bs := firstn (Z.to_nat (j + 1)) (skipn (Z.to_nat idx) fifo)).
    set (rest := skipn (Z.to_nat (j + 1)) (skipn (Z.to_nat idx) fifo)).
    assert (Hskip : skipn (Z.to_nat idx) fifo = bs ++ rest)
      by (symmetry; apply firstn_skipn).
    assert (Hlen : size bs = j + 1).
    { unfold size, bs. rewrite length_firstn, length_skipn.
      unfold rem, size in Hjrem. lia. }
    assert (Hbs : Forall is_byte bs)
      by (apply Forall_firstn_bytes, Forall_skipn_bytes; assumption).
    assert (Hrest : skipn (Z.to_nat (idx + j + 1)) fifo = rest).
    { unfold rest. rewrite skipn_skipn. f_equal. lia. }
    assert (Hszrest : size rest = rem - (j + 1)).
    { pose proof (size_skipn fifo idx ltac:(lia)) as E.
      rewrite Hskip, size_app in E. fold rem in E. lia. }
    rewrite (read_switch_spec fifo idx j bs rest) by (assumption || lia).
    rewrite (to_UInt_small (32 - (n - nh))) by lia.
    replace ((32 - (n - nh)) mod 8) with (8 * (j + 1) - (n - nh))
      by (apply (Z.mod_unique _ _ (3 - j)); lia).
    set (next := 8 * (j + 1) - (n - nh)) in *.
    pose proof (be_value_bounds bs Hbs) as Haw. rewrite Hlen in Haw.
    set (aw := be_value bs) in *.
    rewrite Z.shiftr_div_pow2 by lia.
    pose proof (div_pow2_bound aw (8 * (j + 1)) next ltac:(lia) Haw) as Haq.
    replace (8 * (j + 1) - next) with (n - nh) in Haq by lia.
    rewrite lor_add_disjoint by lia.
    pose proof (pow2_pos next ltac:(lia)) as HPnext.
    do 3 eexists. split; [reflexivity|].
    cbn [R.m_fifo R.m_fifo_idx R.m_held_bits R.m_num_held_bits].
    rewrite length_indices_from.
    assert (Hsztr : size (indices_from idx (Z.to_nat (j + 1))) = j + 1)
      by (unfold size; rewrite length_indices_from; lia).
    rewrite Hsztr.
    pose proof (to_uint8_is_byte aw) as Hb8. unfold is_byte in Hb8.
    split; [repeat split; try assumption; lia|].
    split; [reflexivity|]. split; [fold rem; lia|].
    split; [nia|].
    split; [|split; [reflexivity|split; lia]].
    rewrite Hrest, Hskip, be_value_app, Hszrest.
    unfold to_uint8. rewrite mod_pow2_mod_pow2 by lia.
    replace (size fifo - (idx + j + 1)) with (rem - (j + 1)) by (unfold rem; lia).
    replace (8 * rem) with (n - nh + (next + 8 * (rem - (j + 1)))) by lia.
    replace (8 * (rem - (j + 1)) + next) with (next + 8 * (rem - (j + 1)))
      by lia.
    rewrite !pow2_split by lia.
    pose proof (Z.div_mod aw (2 ^ next) ltac:(lia)) as Eaw.
    fold aw. clearbody aw.
    remember (aw / 2 ^ next) as aq. remember (aw mod 2 ^ next) as ar.
    rewrite Eaw. ring.
Qed.

Lemma read_spec (r : R.t) (n : Z) :
  wf_reader r -> 0 <= n <= 32 -> n <= R.getNumBitsLeft r ->
  exists v r', R.read r n = Some (v, r') /\
    wf_reader r' /\ R.m_fifo r' = R.m_fifo r /\
    R.getNumBitsLeft r' = R.getNumBitsLeft r - n /\
    0 <= v < 2 ^ n /\
    unread_value r = v * 2 ^ R.getNumBitsLeft r' + unread_value r'.
Proof.
  intros Hwf Hn Hleft.
  destruct (read_traced_spec r n Hwf Hn Hleft)
    as (v & r' & tr & E & Hwf' & Hfifo & Hbits & Hv & Hun & _).
  exists v, r'. unfold R.read. rewrite E. auto 10.
Qed.

Lemma at_Some_lt (fifo : list Z) (i b : Z) :
  R.at_ fifo i = Some b -> 0 <= i < size fifo.
Proof.
  unfold R.at_. intros E.
  destruct (Z.leb_spec 0 i); destruct (Z.ltb_spec i (size fifo));
    cbn [andb] in E; try discriminate; lia.
Qed.

(** The switch of [read] when the bytes it needs run past the buffer. *)
Lemma read_switch_oob (fifo : list Z) (idx j : Z) :
  0 <= idx <= size fifo -> size fifo < 2 ^ 32 -> 0 <= j <= 3 ->
  size fifo <= idx + j ->
  R.read_switch fifo idx j = None.
Proof.
  intros Hidx Hsz Hj Hover.
  assert (Hcases : j = 0 \/ j = 1 \/ j = 2 \/ j = 3) by lia.
  destruct Hcases as [-> | [-> | [-> | ->]]]; cbv [R.read_switch];
    repeat
      match goal with
      | |- context [R.at_ fifo ?i] =>
          let E := fresh "E" in
          destruct (R.at_ fifo i) eqn:E;
          [apply at_Some_lt in E; rewrite (to_UInt_small (i + 1)) by lia
          | reflexivity]
      end; lia.
Qed.

(** A direct [read] of more bits than are left faults. *)
Lemma read_overrun (r : R.t) (n : Z) :
  wf_reader r -> 0 <= n <= 32 -> R.getNumBitsLeft r < n ->
  R.read r n = None.
Proof.
  destruct r as [fifo idx held nh].
  unfold wf_reader, R.getNumBitsLeft, R.read, R.read_traced;
    cbn [R.m_fifo R.m_fifo_idx R.m_held_bits R.m_num_held_bits].
  intros (Hf & Hsz & Hidx & Hnh & Hh) Hn Hleft.
  replace (n <=? 32) with true by (symmetry; apply Z.leb_le; lia).
  replace (n <=? nh) with false by (symmetry; apply Z.leb_gt; lia).
  cbn [assert].
  rewrite (to_UInt_small (n - nh)) by lia.
  rewrite (to_UInt_small (n - nh - 1)) by lia.
  rewrite Z.shiftr_div_pow2 by lia. change (2 ^ 3) with 8.
  assert (Hj : 0 <= (n - nh - 1) / 8 <= 3 /\
               size fifo <= idx + (n - nh - 1) / 8)
    by (Z.div_mod_to_equations; lia).
  set (j := (n - nh - 1) / 8) in *.
  destruct (to_UInt (idx + j) <? size fifo); cbn [assert]; [|reflexivity].
  rewrite read_switch_oob by lia. reflexivity.
Qed.

(** Reading the widths of the fields from a reader whose unread bits
    start with their concatenation returns their values. *)
Lemma read_all_spec (fields : list (Z * Z)) :
  Forall field_in_contract fields ->
  forall (r : R.t) (p t : Z),
    wf_reader r -> 0 <= p -> 0 <= t < 2 ^ p ->
    R.getNumBitsLeft r = total_width fields + p ->
    unread_value r = pack fields * 2 ^ p + t ->
    exists r', R.read_all r (map snd fields) = Some (map fst fields, r') /\
      wf_reader r' /\ R.m_fifo r' = R.m_fifo r /\
      R.getNumBitsLeft r' = p /\ unread_value r' = t.
Proof.
  induction 1 as [|[v n] l [Hn Hv] Hl IH];
    intros r p t Hwf Hp Ht Hbits Hun; cbn [map fst snd R.read_all] in *.
  - exists r. simpl in *. split; [reflexivity|]. split; [assumption|].
    split; [reflexivity|]. split; lia.
  - cbn [total_width pack] in *.
    pose proof (total_width_nonneg l Hl) as Htw.
    pose proof (pack_bounds l Hl) as Hpk.
    destruct (read_spec r n Hwf Hn ltac:(lia))
      as (v' & r1 & E1 & Hwf1 & Hf1 & Hb1 & Hv' & Hun1).
    pose proof (unread_bounds r1 Hwf1) as Hub.
    assert (HL : R.getNumBitsLeft r1 = total_width l + p) by lia.
    rewrite HL in *.
    pose proof (pow2_pos (total_width l + p) ltac:(lia)) as HP.
    assert (Hlow : 0 <= pack l * 2 ^ p + t < 2 ^ (total_width l + p)).
    { rewrite pow2_split by lia.
      pose proof (pow2_pos p Hp). nia. }
    assert (Heq : v' * 2 ^ (total_width l + p) + unread_value r1
                  = v * 2 ^ (total_width l + p) + (pack l * 2 ^ p + t)).
    { rewrite <- Hun1, Hun. rewrite pow2_split by lia. ring. }
    assert (Ev : v' = v) by nia.
    assert (Eu : unread_value r1 = pack l * 2 ^ p + t) by (subst v'; lia).
    destruct (IH r1 p t Hwf1 Hp Ht HL Eu)
      as (r2 & E2 & Hwf2 & Hf2 & Hb2 & Hu2).
    exists r2. rewrite E1, E2, Ev.
    split; [reflexivity|]. split; [assumption|].
    split; [congruence|]. split; assumption.
Qed.

Lemma wf_writer_create : wf_writer W.create.
Proof.
  unfold wf_writer, W.create, W.clear; cbn.
  repeat split; try constructor; try lia; discriminate.
Qed.

Lemma wf_reader_create (buf : list Z) :
  Forall is_byte buf -> size buf < 2 ^ 32 -> wf_reader (R.create buf).
Proof.
  intros Hb Hs. unfold wf_reader, R.create; cbn.
  pose proof (size_nonneg buf). repeat split; try assumption; try lia.
Qed.

(** * The properties of the specification *)

(** C1, round-trip law.  For every finite sequence of (value, width) pairs,
    each width in [1,32] and each value confined to its low [width] bits,
    writing them in order with [write] from an empty writer, calling
    [writeAlignZero], then reading the same widths in the same order with
    [read] from a reader created over the resulting bytes returns exactly
    the original values.  The stream is as long as a reader can address:
    its byte length fits the 32-bit cursor [m_fifo_idx]. *)
Theorem round_trip (fields : list (Z * Z)) :
  Forall valid_field fields ->
  total_width fields <= 8 * (2 ^ 32 - 1) ->
  exists s r',
    W.write_all W.create fields = Some s /\
    R.read_all (R.create (W.getByteStream (W.writeAlignZero s)))
               (map snd fields)
    = Some (map fst fields, r').
Proof.
  intros Hv Hfit. apply valid_field_in_contract in Hv.
  destruct (write_all_spec fields Hv W.create wf_writer_create)
    as (s & Ew & Hwf & Hbits & Hval).
  destruct (writeAlignZero_spec s Hwf) as (Hwf' & Hnh' & Hbits' & Hval').
  set (s' := W.writeAlignZero s) in *.
  set (pad := W.getNumBitsUntilByteAligned s) in *.
  assert (Hpad : 0 <= pad < 8)
    by (apply Z.mod_pos_bound; lia).
  unfold W.getNumberOfWrittenBits in Hbits, Hbits'.
  change (W.m_fifo W.create) with (@nil Z) in Hbits.
  change (W.m_num_held_bits W.create) with 0 in Hbits.
  change (size []) with 0 in Hbits.
  assert (Hr : wf_reader (R.create (W.getByteStream s'))).
  { apply wf_reader_create; [apply Hwf'|].
    unfold W.getByteStream. lia. }
  destruct (read_all_spec fields Hv (R.create (W.getByteStream s')) pad 0 Hr)
    as (r' & Er & _).
  - lia.
  - pose proof (pow2_pos pad ltac:(lia)). lia.
  - unfold R.getNumBitsLeft, R.create, W.getByteStream;
      cbn [R.m_fifo R.m_fifo_idx R.m_held_bits R.m_num_held_bits]. lia.
  - unfold unread_value, R.create, W.getByteStream;
      cbn [R.m_fifo R.m_fifo_idx R.m_held_bits R.m_num_held_bits].
    change (Z.to_nat 0) with 0%nat. cbn [skipn].
    rewrite Z.mod_1_r, Z.mul_0_l, Z.add_0_l, Z.add_0_r.
    unfold written_value in Hval', Hval.
    rewrite Hnh' in Hval'.
    change (W.m_fifo W.create) with (@nil Z) in Hval.
    change (W.m_held_bits W.create) with 0 in Hval.
    change (W.m_num_held_bits W.create) with 0 in Hval.
    assert (E0 : W.m_held_bits s' = 0)
      by (apply held_zero_when_aligned; assumption).
    rewrite E0 in Hval'. cbn in Hval, Hval'.
    rewrite Z.mul_1_r, Z.add_0_r in Hval'. rewrite Hval', Hval. lia.
  - exists s, r'. split; assumption.
Qed.

Lemma round_trip_witness :
  exists s r',
    W.write_all W.create [(5, 3); (4294967295, 32); (0, 1); (202, 8)]
    = Some s /\
    R.read_all (R.create (W.getByteStream (W.writeAlignZero s)))
               [3; 32; 1; 8]
    = Some ([5; 4294967295; 0; 202], r').
Proof.
  apply (round_trip [(5, 3); (4294967295, 32); (0, 1); (202, 8)]).
  - repeat constructor; cbn; lia.
  - cbn; lia.
Defined.

(** [pseudoRead] on a well-formed reader: it reads the bits there are, at
    most [numBits], shifts them up to the requested width, and restores
    the reader. *)
Lemma pseudoRead_spec (r : R.t) (numBits : Z) :
  wf_reader r -> 0 <= numBits <= 32 ->
  let k := Z.min numBits (R.getNumBitsLeft r) in
  exists v r1,
    R.read r k = Some (v, r1) /\ 0 <= v < 2 ^ k /\
    v = unread_value r / 2 ^ (R.getNumBitsLeft r - k) /\
    R.pseudoRead r numBits = Some (v * 2 ^ (numBits - k), r).
Proof.
  intros Hwf Hn k.
  assert (Hleft : 0 <= R.getNumBitsLeft r)
    by (destruct Hwf as (_ & _ & ? & ? & _); unfold R.getNumBitsLeft; lia).
  assert (Hk : 0 <= k <= 32 /\ k <= numBits /\ k <= R.getNumBitsLeft r)
    by (subst k; lia).
  destruct (read_spec r k Hwf ltac:(lia) ltac:(lia))
    as (v & r1 & E & Hwf1 & Hfifo & Hbits & Hv & Hun).
  exists v, r1. split; [exact E|]. split; [exact Hv|].
  pose proof (unread_bounds r1 Hwf1) as Hub. rewrite Hbits in *.
  split.
  { apply (Z.div_unique _ _ _ (unread_value r1)); [lia|].
    rewrite Hun. ring. }
  unfold R.pseudoRead. fold k.
  rewrite (to_UInt_small k) by lia. rewrite E.
  rewrite (to_UInt_small (numBits - k)) by lia.
  rewrite Z.shiftl_mul_pow2 by lia.
  pose proof (pow2_pos (numBits - k) ltac:(lia)).
  assert (2 ^ k * 2 ^ (numBits - k) <= 2 ^ 32)
    by (rewrite <- pow2_split by lia; apply pow2_le; lia).
  rewrite to_UInt_small by nia.
  destruct Hwf as (_ & _ & _ & _ & Hh).
  rewrite to_uint8_small by assumption.
  rewrite Hfifo. destruct r; reflexivity.
Qed.

(** C2 as stated fails: over an empty buffer a lookahead of one bit
    returns 0 and leaves the reader as it was, and the [read] of one bit
    that follows faults instead of returning that value. *)
Lemma lookahead_then_read_counterexample :
  wf_reader (R.create []) /\ 0 <= 1 <= 32 /\
  R.pseudoRead (R.create []) 1 = Some (0, R.create []) /\
  R.read (R.create []) 1 = None /\
  ~ lookahead_then_read_agree (R.create []) 1.
Proof.
  split; [apply wf_reader_create; [constructor | cbn; lia]|].
  split; [lia|]. split; [reflexivity|]. split; [reflexivity|].
  intros (v & r1 & r2 & _ & -> & E). discriminate E.
Qed.

(** C2, lookahead non-mutation, amended.  For every well-formed reader
    and every numBits in [0,32], [pseudoRead] leaves the reader (buffer,
    cursor, held bits and their count) exactly as it was; and when at least
    numBits bits are left in the buffer, a [read] of numBits performed
    immediately afterwards returns the value [pseudoRead] returned and
    leaves the reader where a single [read] would have. *)
Theorem pseudoRead_then_read (r : R.t) (numBits : Z) :
  wf_reader r -> 0 <= numBits <= 32 ->
  (exists v, R.pseudoRead r numBits = Some (v, r)) /\
  (numBits <= R.getNumBitsLeft r ->
   lookahead_then_read_agree r numBits /\
   ('(_, r1) <- R.pseudoRead r numBits ;; R.read r1 numBits)
   = R.read r numBits).
Proof.
  intros Hwf Hn.
  destruct (pseudoRead_spec r numBits Hwf Hn) as (v & r1 & E & Hv & _ & Ep).
  split; [eexists; exact Ep|].
  intros Hleft.
  rewrite Z.min_l in E, Ep by lia.
  rewrite Z.sub_diag, Z.mul_1_r in Ep.
  split.
  - exists v, r, r1. auto.
  - rewrite Ep. reflexivity.
Qed.

Lemma pseudoRead_then_read_witness :
  (exists v, R.pseudoRead (R.create [185; 64]) 11
             = Some (v, R.create [185; 64])) /\
  (11 <= R.getNumBitsLeft (R.create [185; 64]) ->
   lookahead_then_read_agree (R.create [185; 64]) 11 /\
   ('(_, r1) <- R.pseudoRead (R.create [185; 64]) 11 ;; R.read r1 11)
   = R.read (R.create [185; 64]) 11).
Proof.
  apply (pseudoRead_then_read (R.create [185; 64]) 11).
  - apply wf_reader_create; [repeat constructor; cbn; lia | cbn; lia].
  - lia.
Defined.

(** C5 as stated fails for a requested width above 32: with 40 bits in
    the buffer a lookahead of 33 bits asks [read] for min(33, 40) = 33
    bits, and the assertion [uiNumberOfBits <= 32] of [read] fails. *)
Lemma pseudoRead_graceful_counterexample :
  wf_reader (R.create [0; 0; 0; 0; 0]) /\
  R.getNumBitsLeft (R.create [0; 0; 0; 0; 0]) = 40 /\
  R.pseudoRead (R.create [0; 0; 0; 0; 0]) 33 = None.
Proof.
  split; [apply wf_reader_create; [repeat constructor; cbn; lia | cbn; lia]|].
  split; reflexivity.
Qed.

(** C5, graceful lookahead at the end of the buffer, amended.  For every
    well-formed reader and every numBits within the contract [0,32],
    [pseudoRead] does not fault: it reads k = min(numBits, bits remaining)
    bits, the leading k unread bits, and returns them shifted left to the
    requested width, so the numBits - k bits past the end of the buffer
    are zero; the reader is left as it was.  A direct [read] of more bits
    than remain faults. *)
Theorem pseudoRead_graceful (r : R.t) (numBits : Z) :
  wf_reader r -> 0 <= numBits <= 32 ->
  let k := Z.min numBits (R.getNumBitsLeft r) in
  exists v r1 result,
    R.read r k = Some (v, r1) /\
    v = unread_value r / 2 ^ (R.getNumBitsLeft r - k) /\
    R.pseudoRead r numBits = Some (result, r) /\
    result = v * 2 ^ (numBits - k) /\
    result / 2 ^ (numBits - k) = v /\
    result mod 2 ^ (numBits - k) = 0 /\
    (R.getNumBitsLeft r < numBits -> R.read r numBits = None).
Proof.
  intros Hwf Hn k.
  destruct (pseudoRead_spec r numBits Hwf Hn)
    as (v & r1 & E & Hv & Hlead & Ep).
  fold k in E, Hv, Hlead, Ep.
  assert (Hleft : 0 <= R.getNumBitsLeft r)
    by (destruct Hwf as (_ & _ & ? & ? & _); unfold R.getNumBitsLeft; lia).
  pose proof (pow2_pos (numBits - k) ltac:(lia)).
  exists v, r1, (v * 2 ^ (numBits - k)).
  split; [exact E|]. split; [exact Hlead|]. split; [exact Ep|].
  split; [reflexivity|].
  split; [apply Z.div_mul; lia|].
  split; [apply Z.mod_mul; lia|].
  intros Hover. apply read_overrun; assumption.
Qed.

Lemma pseudoRead_graceful_witness :
  exists v r1 result,
    R.read (R.create [185]) (Z.min 12 (R.getNumBitsLeft (R.create [185])))
    = Some (v, r1) /\
    v = unread_value (R.create [185])
        / 2 ^ (R.getNumBitsLeft (R.create [185])
               - Z.min 12 (R.getNumBitsLeft (R.create [185]))) /\
    R.pseudoRead (R.create [185]) 12 = Some (result, R.create [185]) /\
    result = v * 2 ^ (12 - Z.min 12 (R.getNumBitsLeft (R.create [185]))) /\
    result / 2 ^ (12 - Z.min 12 (R.getNumBitsLeft (R.create [185]))) = v /\
    result mod 2 ^ (12 - Z.min 12 (R.getNumBitsLeft (R.create [185]))) = 0 /\
    (R.getNumBitsLeft (R.create [185]) < 12 ->
     R.read (R.create [185]) 12 = None).
Proof.
  apply (pseudoRead_graceful (R.create [185]) 12).
  - apply wf_reader_create; [repeat constructor; cbn; lia | cbn; lia].
  - lia.
Defined.

(** C7, read bounds safety.  For every well-formed reader and every
    numBits in [0,32] with numBits at most numHeldBits + 8 * (buffer length
    - cursorIndex), [read] does not fault (neither the assertion nor an
    access outside the buffer), every index of [m_fifo] it reads is below
    the buffer length, [m_fifo_idx] advances by exactly the number of bytes
    read, and those are the bytes from the old cursor on. *)
Theorem read_in_bounds (r : R.t) (numBits : Z) :
  wf_reader r -> 0 <= numBits <= 32 ->
  numBits <= R.m_num_held_bits r + 8 * (size (R.m_fifo r) - R.m_fifo_idx r) ->
  exists v r' accessed,
    R.read_traced r numBits = Some (v, r', accessed) /\
    R.read r numBits = Some (v, r') /\
    Forall (fun i => 0 <= i < size (R.m_fifo r)) accessed /\
    R.m_fifo_idx r' = R.m_fifo_idx r + size accessed /\
    accessed = indices_from (R.m_fifo_idx r) (length accessed).
Proof.
  intros Hwf Hn Hpre.
  destruct (read_traced_spec r numBits Hwf Hn)
    as (v & r' & tr & E & _ & _ & _ & _ & _ & Htr & Hidx & Hin).
  { unfold R.getNumBitsLeft. lia. }
  exists v, r', tr. split; [exact E|].
  split; [unfold R.read; rewrite E; reflexivity|].
  split; [|split; assumption].
  destruct Hwf as (_ & _ & Hi & _).
  rewrite Htr. unfold indices_from. apply Forall_forall.
  intros i Hi'. apply in_map_iff in Hi'. destruct Hi' as (k & <- & Hk).
  apply in_seq in Hk. unfold size in Hin at 1. lia.
Qed.

Lemma read_in_bounds_witness :
  exists v r' accessed,
    R.read_traced (R.create [185; 64]) 11 = Some (v, r', accessed) /\
    R.read (R.create [185; 64]) 11 = Some (v, r') /\
    Forall (fun i => 0 <= i < size (R.m_fifo (R.create [185; 64]))) accessed /\
    R.m_fifo_idx r' = R.m_fifo_idx (R.create [185; 64]) + size accessed /\
    accessed = indices_from (R.m_fifo_idx (R.create [185; 64]))
                            (length accessed).
Proof.
  apply (read_in_bounds (R.create [185; 64]) 11).
  - apply wf_reader_create; [repeat constructor; cbn; lia | cbn; lia].
  - lia.
  - cbn; lia.
Defined.

(** ** Splicing *)

Lemma vector_insert_spec (v : list Z) (pos : nat) (src : list Z) :
  (pos <= length v)%nat ->
  W.vector_insert v pos src = Some (firstn pos v ++ src ++ skipn pos v).
Proof.
  revert v. induction pos as [|p IH]; intros v Hle.
  - destruct v; reflexivity.
  - destruct v as [|x v']; [simpl in Hle; lia|].
    cbn [W.vector_insert firstn skipn]. rewrite IH by (simpl in Hle; lia).
    reflexivity.
Qed.

Lemma to_UInt_mod8 (x : Z) : to_UInt x mod 8 = x mod 8.
Proof.
  unfold to_UInt. change (2 ^ 32) with 4294967296.
  Z.div_mod_to_equations; lia.
Qed.

Lemma insertAt_spec (A B : W.t) (p : Z) :
  W.getNumberOfWrittenBits B mod 8 = 0 ->
  0 <= p <= size (W.m_fifo A) ->
  W.insertAt A B p
  = Some {| W.m_fifo := firstn (Z.to_nat p) (W.m_fifo A) ++ W.m_fifo B
                        ++ skipn (Z.to_nat p) (W.m_fifo A);
            W.m_held_bits := W.m_held_bits A;
            W.m_num_held_bits := W.m_num_held_bits A |}.
Proof.
  intros Hal Hp. unfold W.insertAt.
  rewrite to_UInt_mod8, Hal. cbn [Z.eqb assert].
  rewrite vector_insert_spec by (unfold size in Hp; lia).
  reflexivity.
Qed.

(** C3, splice correctness.  For every writer A, every writer B whose
    written bit count is a multiple of 8, and every byte position p with
    p <= length of A's buffer, [A.insertAt(B, p)] does not fault and makes
    A's buffer A[0:p] ++ B's bytes ++ A[p:]: the bytes of A before p stay
    in place, the bytes at and after p move later by the length of B. *)
Theorem insertAt_splice (A B : W.t) (p : Z) :
  W.getNumberOfWrittenBits B mod 8 = 0 ->
  0 <= p <= size (W.getByteStream A) ->
  exists A',
    W.insertAt A B p = Some A' /\
    W.getByteStream A'
    = firstn (Z.to_nat p) (W.getByteStream A) ++ W.getByteStream B
      ++ skipn (Z.to_nat p) (W.getByteStream A) /\
    (forall i, (i < Z.to_nat p)%nat ->
       nth_error (W.getByteStream A') i = nth_error (W.getByteStream A) i) /\
    (forall i, (Z.to_nat p <= i)%nat ->
       nth_error (W.getByteStream A') (length (W.getByteStream B) + i)
       = nth_error (W.getByteStream A) i).
Proof.
  unfold W.getByteStream. intros Hal Hp.
  eexists. split; [apply insertAt_spec; assumption|].
  cbn [W.m_fifo]. split; [reflexivity|].
  assert (Hlen : length (firstn (Z.to_nat p) (W.m_fifo A)) = Z.to_nat p)
    by (rewrite length_firstn; unfold size in Hp; lia).
  split; intros i Hi.
  - rewrite nth_error_app1 by lia.
    rewrite nth_error_firstn.
    destruct (Nat.ltb_spec i (Z.to_nat p)); [reflexivity | lia].
  - rewrite nth_error_app2 by lia.
    rewrite nth_error_app2 by lia.
    rewrite Hlen, nth_error_skipn. f_equal. lia.
Qed.

Lemma insertAt_splice_witness :
  exists A',
    W.insertAt (W.mk [1; 2; 3] 0 0) (W.mk [10; 11] 0 0) 1 = Some A' /\
    W.getByteStream A'
    = firstn (Z.to_nat 1) (W.getByteStream (W.mk [1; 2; 3] 0 0))
      ++ W.getByteStream (W.mk [10; 11] 0 0)
      ++ skipn (Z.to_nat 1) (W.getByteStream (W.mk [1; 2; 3] 0 0)) /\
    (forall i, (i < Z.to_nat 1)%nat ->
       nth_error (W.getByteStream A') i
       = nth_error (W.getByteStream (W.mk [1; 2; 3] 0 0)) i) /\
    (forall i, (Z.to_nat 1 <= i)%nat ->
       nth_error (W.getByteStream A')
                 (length (W.getByteStream (W.mk [10; 11] 0 0)) + i)
       = nth_error (W.getByteStream (W.mk [1; 2; 3] 0 0)) i).
Proof.
  apply (insertAt_splice (W.mk [1; 2; 3] 0 0) (W.mk [10; 11] 0 0) 1).
  - reflexivity.
  - cbn; lia.
Defined.

Lemma nth_error_store_set_same (h : W.store) (a : nat) (s x : W.t) :
  nth_error h a = Some x -> nth_error (W.store_set h a s) a = Some s.
Proof.
  revert a. induction h as [|y h IH]; intros [|a] E; try discriminate.
  - reflexivity.
  - cbn [W.store_set nth_error] in *. apply IH. exact E.
Qed.

Lemma nth_error_store_set_other (h : W.store) (a c : nat) (s : W.t) :
  c <> a -> nth_error (W.store_set h a s) c = nth_error h c.
Proof.
  revert a c. induction h as [|y h IH]; intros [|a] [|c] Hne;
    cbn [W.store_set nth_error]; try reflexivity; try congruence.
  apply IH. congruence.
Qed.

Lemma insertAt_in_spec (h : W.store) (a b : nat) (A B : W.t) (p : Z) :
  nth_error h a = Some A -> nth_error h b = Some B ->
  W.getNumberOfWrittenBits B mod 8 = 0 -> 0 <= p <= size (W.m_fifo A) ->
  W.insertAt_in h a b p
  = Some (W.store_set h a
            (W.mk (firstn (Z.to_nat p) (W.m_fifo A) ++ W.m_fifo B
                   ++ skipn (Z.to_nat p) (W.m_fifo A))
                  (W.m_held_bits A) (W.m_num_held_bits A))).
Proof.
  intros Ha Hb Hal Hp.
  unfold W.insertAt_in, W.load, W.store_fifo. rewrite Hb, Ha.
  rewrite to_UInt_mod8, Hal. cbn [Z.eqb assert].
  rewrite vector_insert_spec by (unfold size in Hp; lia).
  reflexivity.
Qed.

Lemma insertAt_in_returns (h h' : W.store) (a b : nat) (B : W.t) (p : Z) :
  nth_error h b = Some B -> W.insertAt_in h a b p = Some h' ->
  W.getNumberOfWrittenBits B mod 8 = 0.
Proof.
  intros Hb E. unfold W.insertAt_in in E. rewrite Hb, to_UInt_mod8 in E.
  destruct (Z.eqb_spec 0 (W.getNumberOfWrittenBits B mod 8)) as [E0 | E0];
    [symmetry; exact E0 | discriminate E].
Qed.

(** C10 as stated fails when the source is the destination itself, which
    the code accepts: [A.insertAt(A, 1)] on the buffer 1 2 3 returns with
    the buffer 1 1 2 3 2 3, so the source writer is not left unchanged. *)
Lemma insertAt_frame_counterexample :
  1 <= size (W.m_fifo (W.mk [1; 2; 3] 0 0)) /\
  W.insertAt_in [W.mk [1; 2; 3] 0 0] 0 0 1
  = Some [W.mk [1; 1; 2; 3; 2; 3] 0 0] /\
  nth_error [W.mk [1; 1; 2; 3; 2; 3] 0 0] 0
  <> nth_error [W.mk [1; 2; 3] 0 0] 0.
Proof.
  split; [cbn; lia|]. split; [reflexivity | discriminate].
Qed.

(** C10, frame of [insertAt], amended.  For every call [A.insertAt(B, p)]
    on two writers of the store, B other than A, with p at most the length
    of A's buffer: when the call returns, B is exactly as before (buffer,
    held bits and their count), as is every writer other than A, and A
    keeps its held bits and their count while its buffer becomes
    A[0:p] ++ B's bytes ++ A[p:]: only A's buffer changes.  The call
    returns whenever B is byte-aligned. *)
Theorem insertAt_frame (h : W.store) (a b : nat) (A B : W.t) (p : Z) :
  nth_error h a = Some A -> nth_error h b = Some B -> a <> b ->
  0 <= p <= size (W.m_fifo A) ->
  (forall h', W.insertAt_in h a b p = Some h' ->
     nth_error h' b = Some B /\
     (forall c, c <> a -> nth_error h' c = nth_error h c) /\
     nth_error h' a
     = Some (W.mk (firstn (Z.to_nat p) (W.m_fifo A) ++ W.m_fifo B
                   ++ skipn (Z.to_nat p) (W.m_fifo A))
                  (W.m_held_bits A) (W.m_num_held_bits A))) /\
  (W.getNumberOfWrittenBits B mod 8 = 0 ->
   exists h', W.insertAt_in h a b p = Some h').
Proof.
  intros Ha Hb Hne Hp. split.
  - intros h' E.
    pose proof (insertAt_in_returns h h' a b B p Hb E) as Hal.
    rewrite (insertAt_in_spec h a b A B p Ha Hb Hal Hp) in E.
    injection E as <-.
    split; [rewrite nth_error_store_set_other by congruence; exact Hb|].
    split; [intros c Hc; apply nth_error_store_set_other; exact Hc|].
    eapply nth_error_store_set_same; exact Ha.
  - intros Hal. rewrite (insertAt_in_spec h a b A B p Ha Hb Hal Hp).
    eexists; reflexivity.
Qed.

Lemma insertAt_frame_witness :
  (forall h',
     W.insertAt_in [W.mk [1; 2; 3] 160 3; W.mk [10; 11] 0 0] 0 1 2 = Some h' ->
     nth_error h' 1%nat = Some (W.mk [10; 11] 0 0) /\
     (forall c, c <> 0%nat ->
        nth_error h' c
        = nth_error [W.mk [1; 2; 3] 160 3; W.mk [10; 11] 0 0] c) /\
     nth_error h' 0%nat
     = Some (W.mk (firstn (Z.to_nat 2) (W.m_fifo (W.mk [1; 2; 3] 160 3))
                   ++ W.m_fifo (W.mk [10; 11] 0 0)
                   ++ skipn (Z.to_nat 2) (W.m_fifo (W.mk [1; 2; 3] 160 3)))
                  (W.m_held_bits (W.mk [1; 2; 3] 160 3))
                  (W.m_num_held_bits (W.mk [1; 2; 3] 160 3)))) /\
  (W.getNumberOfWrittenBits (W.mk [10; 11] 0 0) mod 8 = 0 ->
   exists h',
     W.insertAt_in [W.mk [1; 2; 3] 160 3; W.mk [10; 11] 0 0] 0 1 2 = Some h').
Proof.
  apply (insertAt_frame [W.mk [1; 2; 3] 160 3; W.mk [10; 11] 0 0] 0 1
                        (W.mk [1; 2; 3] 160 3) (W.mk [10; 11] 0 0) 2).
  - reflexivity.
  - reflexivity.
  - discriminate.
  - cbn; lia.
Defined.

(** ** Runs of calls *)

Lemma do_call_spec (s : W.t) (c : W.call) :
  wf_writer s -> valid_call c ->
  exists s1, W.do_call s c = Some s1 /\ wf_writer s1 /\
    W.getNumberOfWrittenBits s1
    = W.getNumberOfWrittenBits s + W.bits_of_call s c /\
    (is_align c = true -> W.m_num_held_bits s1 = 0).
Proof.
  intros Hwf Hc. destruct c as [v n | |]; cbn [W.do_call W.bits_of_call is_align].
  - destruct Hc as [Hn Hv].
    destruct (write_spec s v n Hwf Hn Hv) as (s1 & E & Hwf1 & Hb & _).
    exists s1. split; [exact E|]. split; [exact Hwf1|].
    split; [exact Hb | discriminate].
  - destruct (writeAlignZero_spec s Hwf) as (Hwf1 & Hnh & Hb & _).
    eexists. split; [reflexivity|]. split; [exact Hwf1|].
    split; [exact Hb | intros _; exact Hnh].
  - destruct (writeAlignOne_spec s Hwf) as (s1 & E & Hwf1 & Hnh & Hb).
    exists s1. split; [exact E|]. split; [exact Hwf1|].
    split; [exact Hb | intros _; exact Hnh].
Qed.

Lemma run_spec (cs : list W.call) :
  Forall valid_call cs ->
  forall s, wf_writer s ->
  exists s' n, W.run s cs = Some (s', n) /\ wf_writer s' /\
    W.getNumberOfWrittenBits s' = W.getNumberOfWrittenBits s + n /\
    (forall cs' c, cs = cs' ++ [c] -> is_align c = true ->
       W.m_num_held_bits s' = 0).
Proof.
  induction 1 as [|c cs Hc Hcs IH]; intros s Hwf; cbn [W.run].
  - exists s, 0. split; [reflexivity|]. split; [exact Hwf|].
    split; [lia|]. intros [|x xs] c' E; discriminate E.
  - rename c into c0.
    destruct (do_call_spec s c0 Hwf Hc) as (s1 & E1 & Hwf1 & Hb1 & Hal1).
    destruct (IH s1 Hwf1) as (s2 & n & E2 & Hwf2 & Hb2 & Hal2).
    exists s2, (W.bits_of_call s c0 + n). rewrite E1, E2.
    split; [reflexivity|]. split; [exact Hwf2|]. split; [lia|].
    intros cs' c' E Hc'.
    destruct cs' as [|x cs'].
    + cbn [app] in E. injection E as Ec Ecs. subst c0 cs.
      cbn [W.run] in E2. injection E2 as Es _. subst s2.
      apply Hal1. exact Hc'.
    + cbn [app] in E. injection E as _ Ecs.
      apply (Hal2 cs' c' Ecs Hc').
Qed.

Lemma getByteStreamLength_small (s : W.t) :
  size (W.m_fifo s) < 2 ^ 32 -> W.getByteStreamLength s = size (W.m_fifo s).
Proof.
  intros H. unfold W.getByteStreamLength. apply to_UInt_small.
  pose proof (size_nonneg (W.m_fifo s)). lia.
Qed.

(** C4, bit-count conservation.  For every sequence of [write],
    [writeAlignZero] and [writeAlignOne] calls (each write with numBits in
    [0,32] and the value in its low numBits bits), starting from an empty
    or cleared writer, no call faults, and the number of bits written,
    alignment padding included, is 8 * (bytes in the buffer) + numHeldBits,
    with numHeldBits in [0,7]; the number of bytes is what
    [getByteStreamLength] returns as long as it fits its 32-bit result.
    When the last call is an alignment, no bit is held and the widths plus
    the padding are 8 times the byte length. *)
Theorem bit_count_conservation (s0 : W.t) (cs : list W.call) :
  s0 = W.create \/ (exists s, s0 = W.clear s) ->
  Forall valid_call cs ->
  exists s n,
    W.run s0 cs = Some (s, n) /\
    n = 8 * size (W.getByteStream s) + W.m_num_held_bits s /\
    0 <= W.m_num_held_bits s <= 7 /\
    (size (W.getByteStream s) < 2 ^ 32 ->
     n = 8 * W.getByteStreamLength s + W.m_num_held_bits s) /\
    (forall cs' c, cs = cs' ++ [c] -> is_align c = true ->
       W.m_num_held_bits s = 0 /\ n = 8 * size (W.getByteStream s)).
Proof.
  intros Hinit Hcs.
  assert (E0 : s0 = W.create) by (destruct Hinit as [-> | [s ->]]; reflexivity).
  subst s0.
  destruct (run_spec cs Hcs W.create wf_writer_create)
    as (s & n & E & Hwf & Hb & Hal).
  unfold W.getNumberOfWrittenBits in Hb.
  change (W.m_fifo W.create) with (@nil Z) in Hb.
  change (W.m_num_held_bits W.create) with 0 in Hb.
  change (size []) with 0 in Hb.
  unfold W.getByteStream.
  exists s, n. split; [exact E|]. split; [lia|].
  split; [apply Hwf|].
  split.
  - intros Hfit. rewrite getByteStreamLength_small by exact Hfit. lia.
  - intros cs' c Ecs Hc. pose proof (Hal cs' c Ecs Hc). lia.
Qed.

Lemma bit_count_conservation_witness :
  exists s n,
    W.run (W.clear (W.mk [7] 128 1))
          [W.Write 5 3; W.WriteAlignOne; W.Write 202 8; W.Write 0 0;
           W.Write 1 2; W.WriteAlignZero]
    = Some (s, n) /\
    n = 8 * size (W.getByteStream s) + W.m_num_held_bits s /\
    0 <= W.m_num_held_bits s <= 7 /\
    (size (W.getByteStream s) < 2 ^ 32 ->
     n = 8 * W.getByteStreamLength s + W.m_num_held_bits s) /\
    (forall cs' c,
       [W.Write 5 3; W.WriteAlignOne; W.Write 202 8; W.Write 0 0;
        W.Write 1 2; W.WriteAlignZero] = cs' ++ [c] ->
       is_align c = true ->
       W.m_num_held_bits s = 0 /\ n = 8 * size (W.getByteStream s)).
Proof.
  apply (bit_count_conservation (W.clear (W.mk [7] 128 1))).
  - right. exists (W.mk [7] 128 1). reflexivity.
  - repeat constructor; cbn; lia.
Defined.

(** ** Alignment *)

Lemma writeAlignOne_aligned (fifo : list Z) (held : Z) :
  is_byte held ->
  W.writeAlignOne (W.mk fifo held 0) = Some (W.mk fifo held 0).
Proof.
  intros Hh.
  cbv [W.writeAlignOne W.getNumBitsUntilByteAligned W.write
       W.m_fifo W.m_held_bits W.m_num_held_bits].
  change (to_UInt ((8 - 0) mod 8)) with 0.
  cbn. rewrite Z.lor_0_r. fold (to_uint8 held).
  rewrite to_uint8_small by exact Hh. reflexivity.
Qed.

Lemma writeAlignOne_leaves_none_held (s : W.t) :
  exists fifo held,
    W.writeAlignOne s = Some (W.mk fifo held 0) /\ is_byte held.
Proof.
  destruct s as [fifo held nh].
  unfold W.writeAlignOne, W.getNumBitsUntilByteAligned, W.write;
    cbn [W.m_fifo W.m_held_bits W.m_num_held_bits].
  pose proof (Z.mod_pos_bound (8 - nh) 8 ltac:(lia)) as Hpad.
  set (pad := (8 - nh) mod 8) in *.
  rewrite (to_UInt_small pad) by lia.
  replace (pad <=? 32) with true by (symmetry; apply Z.leb_le; lia).
  cbn [assert].
  assert (Enext : to_UInt (pad + nh) mod 8 = 0).
  { rewrite to_UInt_mod8. subst pad. Z.div_mod_to_equations; lia. }
  rewrite Enext.
  destruct (Z.shiftr (to_UInt (pad + nh)) 3 =? 0);
    eexists; eexists; (split; [reflexivity | apply to_uint8_is_byte]).
Qed.

(** C6, alignment idempotence.  For every writer state, calling
    [writeAlignZero] twice in succession gives the state one call gives,
    and so does [writeAlignOne], which never faults: the second call
    changes neither the buffer nor the held bits. *)
Theorem align_idempotent (s : W.t) :
  W.writeAlignZero (W.writeAlignZero s) = W.writeAlignZero s /\
  exists s1, W.writeAlignOne s = Some s1 /\ W.writeAlignOne s1 = Some s1.
Proof.
  split.
  - unfold W.writeAlignZero at 2 3.
    destruct (0 =? W.m_num_held_bits s) eqn:E.
    + unfold W.writeAlignZero. rewrite E. reflexivity.
    + reflexivity.
  - destruct (writeAlignOne_leaves_none_held s) as (fifo & held & E & Hh).
    eexists. split; [exact E|]. apply writeAlignOne_aligned. exact Hh.
Qed.

(** ** Scenarios *)

(** C8, concrete scenario.  From an empty writer, write(0b101, 3), then
    write(0b11001010, 8), then [writeAlignZero] produce exactly the two
    bytes 10111001 01000000 (0xb9, 0x40); reading 3 bits and then 8 bits
    from a reader over those bytes returns 0b101 and 0b11001010, and
    leaves 5 unread bits, which are zero. *)
Theorem concrete_scenario :
  exists s1 s2 r1 r2 r3,
    W.write W.create 5 3 = Some s1 /\
    W.write s1 0xca 8 = Some s2 /\
    W.writeAlignZero s2 = W.mk [0xb9; 0x40] 0 0 /\
    W.getByteStream (W.writeAlignZero s2) = [0xb9; 0x40] /\
    R.read (R.create [0xb9; 0x40]) 3 = Some (5, r1) /\
    R.read r1 8 = Some (0xca, r2) /\
    R.getNumBitsLeft r2 = 5 /\
    R.read r2 5 = Some (0, r3) /\
    R.getNumBitsLeft r3 = 0.
Proof.
  do 5 eexists. repeat split; reflexivity.
Qed.

(** C9, boundary scenario.  From an empty writer, write(1, 1) followed by
    [writeAlignOne] produces a buffer of exactly one byte, 11111111
    (0xff), with no held bit. *)
Theorem boundary_scenario :
  exists s1 s2,
    W.write W.create 1 1 = Some s1 /\
    W.writeAlignOne s1 = Some s2 /\
    W.getByteStream s2 = [0xff] /\
    W.getByteStreamLength s2 = 1 /\
    W.m_num_held_bits s2 = 0 /\
    W.m_held_bits s2 = 0.
Proof.
  do 2 eexists. repeat split; reflexivity.
Qed.

(** * Further properties of the code *)

(** ** [write] only appends *)

Lemma write_switch_appends (fifo : list Z) (k w : Z) :
  exists tail, W.write_switch fifo k w = fifo ++ tail /\
    (length tail <= 4)%nat /\ Forall is_byte tail.
Proof.
  unfold W.write_switch, push_back.
  repeat match goal with
         | |- context [match ?p with _ => _ end] => destruct p
         end;
    rewrite <- ?app_assoc; cbn [app];
    try (exists []; rewrite app_nil_r; split; [reflexivity|];
         split; [simpl; lia | constructor]);
    (eexists; split; [reflexivity|]; split; [simpl; lia|];
     repeat constructor; apply to_uint8_is_byte).
Qed.

(** X1.  [write] never changes a byte already in the buffer: whatever the
    state, the value and the width, when it returns the new buffer is the
    old one followed by at most 4 bytes.  Within the contract, from a
    well-formed writer, it appends exactly (numHeldBits + numBits) / 8
    bytes and holds (numHeldBits + numBits) mod 8 bits. *)
Theorem write_append_only (s s' : W.t) (v n : Z) :
  W.write s v n = Some s' ->
  exists tail,
    W.m_fifo s' = W.m_fifo s ++ tail /\ (length tail <= 4)%nat /\
    Forall is_byte tail /\
    (wf_writer s -> 0 <= n -> 0 <= v < 2 ^ n ->
     size tail = (W.m_num_held_bits s + n) / 8 /\
     W.m_num_held_bits s' = (W.m_num_held_bits s + n) mod 8).
Proof.
  intros E.
  assert (Hn32 : n <= 32).
  { unfold W.write in E. destruct (Z.leb_spec n 32); [assumption|].
    discriminate E. }
  assert (Happ : exists tail, W.m_fifo s' = W.m_fifo s ++ tail /\
                   (length tail <= 4)%nat /\ Forall is_byte tail).
  { unfold W.write in E. destruct (assert _); [|discriminate].
    destruct (_ =? 0).
    - injection E as <-. exists []. cbn [W.m_fifo]. rewrite app_nil_r.
      split; [reflexivity|]. split; [simpl; lia | constructor].
    - injection E as <-. cbn [W.m_fifo]. apply write_switch_appends. }
  destruct Happ as (tail & Ef & Hlen & Hb).
  exists tail. split; [exact Ef|]. split; [exact Hlen|]. split; [exact Hb|].
  intros Hwf Hn Hv.
  destruct (write_spec s v n Hwf ltac:(lia) Hv) as (s1 & E1 & Hwf1 & Hbits & _).
  rewrite E in E1. injection E1 as <-.
  unfold W.getNumberOfWrittenBits in Hbits. rewrite Ef, size_app in Hbits.
  destruct Hwf1 as (_ & Hnh' & _). pose proof (size_nonneg tail).
  split.
  - apply (Z.div_unique _ _ _ (W.m_num_held_bits s')); lia.
  - apply (Z.mod_unique _ _ (size tail)); lia.
Qed.

Lemma write_append_only_witness :
  exists tail,
    W.m_fifo (W.mk [1; 184] 0 0) = W.m_fifo (W.mk [1] 160 3) ++ tail /\
    (length tail <= 4)%nat /\ Forall is_byte tail /\
    (wf_writer (W.mk [1] 160 3) -> 0 <= 5 -> 0 <= 24 < 2 ^ 5 ->
     size tail = (W.m_num_held_bits (W.mk [1] 160 3) + 5) / 8 /\
     W.m_num_held_bits (W.mk [1; 184] 0 0)
     = (W.m_num_held_bits (W.mk [1] 160 3) + 5) mod 8).
Proof.
  apply (write_append_only (W.mk [1] 160 3) (W.mk [1; 184] 0 0) 24 5).
  reflexivity.
Defined.

(** ** Fields of no bit *)

(** X2.  Writing a field of no bit to a well-formed writer changes
    nothing: the buffer, the held byte and the held count stay as they
    are. *)
Theorem write_no_bits (s : W.t) :
  wf_writer s -> W.write s 0 0 = Some s.
Proof.
  destruct s as [fifo held nh].
  intros (_ & Hnh & Hh & _); cbn [W.m_fifo W.m_held_bits W.m_num_held_bits] in *.
  unfold W.write; cbn [W.m_fifo W.m_held_bits W.m_num_held_bits assert Z.leb].
  cbn [Z.compare assert]. rewrite Z.add_0_l.
  rewrite (to_UInt_small nh) by lia.
  rewrite (Z.mod_small nh 8) by lia.
  rewrite next_held_bits_eq by lia.
  rewrite Z.mod_0_l by (pose proof (pow2_pos nh); lia).
  rewrite Z.mul_0_l, Z.lor_0_r, to_uint8_small by assumption.
  rewrite Z.shiftr_div_pow2 by lia. change (2 ^ 3) with 8.
  rewrite Z.div_small by lia. reflexivity.
Qed.

Lemma write_no_bits_witness :
  W.write (W.mk [1; 2] 160 3) 0 0 = Some (W.mk [1; 2] 160 3).
Proof.
  apply (write_no_bits (W.mk [1; 2] 160 3)).
  unfold wf_writer; cbn. repeat split; try lia.
  repeat constructor; cbn; lia.
Defined.

(** X3.  Reading no bit from a well-formed reader returns 0 and leaves the
    reader as it is, also when the buffer is exhausted. *)
Theorem read_no_bits (r : R.t) :
  wf_reader r -> R.read r 0 = Some (0, r).
Proof.
  destruct r as [fifo idx held nh].
  intros (_ & _ & _ & Hnh & Hh);
    cbn [R.m_fifo R.m_fifo_idx R.m_held_bits R.m_num_held_bits] in *.
  unfold R.read, R.read_traced;
    cbn [R.m_fifo R.m_fifo_idx R.m_held_bits R.m_num_held_bits].
  change (0 <=? 32) with true. cbn [assert].
  replace (0 <=? nh) with true by (symmetry; apply Z.leb_le; lia).
  rewrite Z.sub_0_r, (to_UInt_small nh) by lia.
  rewrite Z.shiftr_div_pow2 by lia.
  pose proof (pow2_pos nh ltac:(lia)) as HP.
  assert (Hq : 0 <= held / 2 ^ nh < 2 ^ 8).
  { split; [apply Z.div_pos; lia|].
    apply Z.div_lt_upper_bound; [lia|]. nia. }
  rewrite to_UInt_small by lia.
  rewrite land_to_UInt_r by lia.
  rewrite land_lnot_ff by (simpl; lia).
  rewrite Z.mod_1_r. reflexivity.
Qed.

Lemma read_no_bits_witness :
  R.read (R.mk [185] 1 185 3) 0 = Some (0, R.mk [185] 1 185 3).
Proof.
  apply (read_no_bits (R.mk [185] 1 185 3)).
  unfold wf_reader; cbn. repeat split; try lia.
  repeat constructor; cbn; lia.
Defined.

(** ** When [read] faults *)

(** X4.  On a well-formed reader, [read] faults exactly when the width is
    above 32 or above the number of bits left (held bits and bytes from
    the cursor on); otherwise it returns. *)
Theorem read_faults_iff (r : R.t) (n : Z) :
  wf_reader r -> 0 <= n ->
  (R.read r n = None <-> 32 < n \/ R.getNumBitsLeft r < n).
Proof.
  intros Hwf Hn. split.
  - intros E.
    destruct (Z.le_gt_cases n 32) as [H32 | H32]; [|left; lia].
    destruct (Z.le_gt_cases n (R.getNumBitsLeft r)) as [Hl | Hl]; [|right; lia].
    destruct (read_spec r n Hwf ltac:(lia) Hl) as (v & r' & E' & _).
    congruence.
  - intros [H32 | Hl].
    + unfold R.read, R.read_traced.
      replace (n <=? 32) with false by (symmetry; apply Z.leb_gt; lia).
      reflexivity.
    + destruct (Z.le_gt_cases n 32) as [H32 | H32].
      * apply read_overrun; [assumption | lia | assumption].
      * unfold R.read, R.read_traced.
        replace (n <=? 32) with false by (symmetry; apply Z.leb_gt; lia).
        reflexivity.
Qed.

Lemma read_faults_iff_witness :
  R.read (R.mk [185; 64] 1 185 3) 12 = None
  <-> 32 < 12 \/ R.getNumBitsLeft (R.mk [185; 64] 1 185 3) < 12.
Proof.
  apply (read_faults_iff (R.mk [185; 64] 1 185 3) 12).
  - unfold wf_reader; cbn. repeat split; try lia.
    repeat constructor; cbn; lia.
  - lia.
Defined.

(** ** Sequences of reads *)

(** X5.  Reading a list of widths, each in [0,32], from a well-formed
    reader: when their total is at most the bits left, every read returns,
    the buffer is unchanged, and exactly the total is consumed (the bits
    left drop by it, 8 * cursor - numHeldBits grows by it, the cursor does
    not move back); when the total exceeds the bits left, the sequence
    faults. *)
Theorem read_all_consumes (ws : list Z) (r : R.t) :
  wf_reader r -> Forall (fun n => 0 <= n <= 32) ws ->
  (sum_widths ws <= R.getNumBitsLeft r ->
   exists vs r',
     R.read_all r ws = Some (vs, r') /\ length vs = length ws /\
     wf_reader r' /\ R.m_fifo r' = R.m_fifo r /\
     R.getNumBitsLeft r' = R.getNumBitsLeft r - sum_widths ws /\
     bits_consumed r' = bits_consumed r + sum_widths ws /\
     R.m_fifo_idx r <= R.m_fifo_idx r') /\
  (R.getNumBitsLeft r < sum_widths ws -> R.read_all r ws = None).
Proof.
  intros Hwf Hws. revert r Hwf.
  induction Hws as [|n ws Hn Hws IH]; intros r Hwf; cbn [sum_widths R.read_all].
  - split.
    + intros _. exists [], r.
      split; [reflexivity|]. split; [reflexivity|]. split; [assumption|].
      split; [reflexivity|]. split; [lia|]. split; lia.
    + destruct Hwf as (_ & _ & ? & ? & _). unfold R.getNumBitsLeft. lia.
  - assert (Hsum : 0 <= sum_widths ws).
    { clear - Hws. induction Hws; cbn [sum_widths]; lia. }
    destruct (Z.le_gt_cases n (R.getNumBitsLeft r)) as [Hl | Hl].
    + destruct (read_traced_spec r n Hwf Hn Hl)
        as (v & r1 & tr & E & Hwf1 & Hf1 & Hb1 & _ & _ & _ & Hidx & _).
      assert (E1 : R.read r n = Some (v, r1))
        by (unfold R.read; rewrite E; reflexivity).
      rewrite E1. destruct (IH r1 Hwf1) as [IHok IHfail].
      split.
      * intros Htot.
        destruct (IHok ltac:(lia))
          as (vs & r2 & E2 & Hlen & Hwf2 & Hf2 & Hb2 & Hc2 & Hi2).
        exists (v :: vs), r2. rewrite E2.
        split; [reflexivity|]. split; [simpl; lia|].
        split; [assumption|]. split; [congruence|]. split; [lia|].
        pose proof (size_nonneg tr).
        unfold bits_consumed, R.getNumBitsLeft in *.
        rewrite Hf1 in *. split; lia.
      * intros Htot. rewrite IHfail by lia. reflexivity.
    + split; [lia|]. intros _.
      rewrite read_overrun by (assumption || lia). reflexivity.
Qed.

Lemma read_all_consumes_witness :
  (sum_widths [3; 8; 0] <= R.getNumBitsLeft (R.create [185; 64]) ->
   exists vs r',
     R.read_all (R.create [185; 64]) [3; 8; 0] = Some (vs, r') /\
     length vs = length [3; 8; 0] /\
     wf_reader r' /\ R.m_fifo r' = R.m_fifo (R.create [185; 64]) /\
     R.getNumBitsLeft r'
     = R.getNumBitsLeft (R.create [185; 64]) - sum_widths [3; 8; 0] /\
     bits_consumed r'
     = bits_consumed (R.create [185; 64]) + sum_widths [3; 8; 0] /\
     R.m_fifo_idx (R.create [185; 64]) <= R.m_fifo_idx r') /\
  (R.getNumBitsLeft (R.create [185; 64]) < sum_widths [3; 8; 0] ->
   R.read_all (R.create [185; 64]) [3; 8; 0] = None).
Proof.
  apply (read_all_consumes [3; 8; 0] (R.create [185; 64])).
  - apply wf_reader_create; [repeat constructor; cbn; lia | cbn; lia].
  - repeat constructor; lia.
Defined.

(** ** The bits a read returns *)

(** A read returns the leading unread bits and leaves the rest. *)
Lemma read_value (r : R.t) (n : Z) :
  wf_reader r -> 0 <= n <= 32 -> n <= R.getNumBitsLeft r ->
  exists v r', R.read r n = Some (v, r') /\
    wf_reader r' /\ R.m_fifo r' = R.m_fifo r /\
    R.getNumBitsLeft r' = R.getNumBitsLeft r - n /\
    v = unread_value r / 2 ^ (R.getNumBitsLeft r - n) /\
    unread_value r' = unread_value r mod 2 ^ (R.getNumBitsLeft r - n).
Proof.
  intros Hwf Hn Hl.
  destruct (read_spec r n Hwf Hn Hl)
    as (v & r' & E & Hwf' & Hf & Hb & Hv & Hun).
  pose proof (unread_bounds r' Hwf') as Hub. rewrite Hb in *.
  exists v, r'. split; [exact E|]. split; [exact Hwf'|].
  split; [exact Hf|]. split; [exact Hb|].
  split.
  - apply (Z.div_unique _ _ _ (unread_value r')); [lia|]. rewrite Hun. ring.
  - apply (Z.mod_unique _ _ v); [lia|]. rewrite Hun. ring.
Qed.

Lemma unread_value_create (buf : list Z) :
  unread_value (R.create buf) = be_value buf.
Proof.
  unfold unread_value, R.create;
    cbn [R.m_fifo R.m_fifo_idx R.m_held_bits R.m_num_held_bits].
  change (Z.to_nat 0) with 0%nat. cbn [skipn].
  rewrite Z.mod_1_r. lia.
Qed.

(** X6.  Bits come out most significant first: the first read of n bits
    from a reader created over a buffer returns the n leading bits of the
    buffer taken as one big-endian number, and leaves the remaining
    8 * length - n bits unread. *)
Theorem read_msb_first (buf : list Z) (n : Z) :
  Forall is_byte buf -> size buf < 2 ^ 32 ->
  0 <= n <= 32 -> n <= 8 * size buf ->
  exists r',
    R.read (R.create buf) n
    = Some (be_value buf / 2 ^ (8 * size buf - n), r') /\
    R.getNumBitsLeft r' = 8 * size buf - n /\
    unread_value r' = be_value buf mod 2 ^ (8 * size buf - n).
Proof.
  intros Hb Hs Hn Hl.
  pose proof (wf_reader_create buf Hb Hs) as Hwf.
  assert (Eleft : R.getNumBitsLeft (R.create buf) = 8 * size buf)
    by (unfold R.getNumBitsLeft, R.create;
        cbn [R.m_fifo R.m_fifo_idx R.m_num_held_bits]; lia).
  destruct (read_value (R.create buf) n Hwf Hn ltac:(lia))
    as (v & r' & E & _ & _ & Hleft & Hv & Hun).
  rewrite Eleft, unread_value_create in *.
  exists r'. rewrite E, Hv. auto.
Qed.

Lemma read_msb_first_witness :
  exists r',
    R.read (R.create [185; 64]) 11
    = Some (be_value [185; 64] / 2 ^ (8 * size [185; 64] - 11), r') /\
    R.getNumBitsLeft r' = 8 * size [185; 64] - 11 /\
    unread_value r' = be_value [185; 64] mod 2 ^ (8 * size [185; 64] - 11).
Proof.
  apply (read_msb_first [185; 64] 11).
  - repeat constructor; cbn; lia.
  - cbn; lia.
  - lia.
  - cbn; lia.
Defined.

(** X7.  Consumed bits never come back: two well-formed readers at the
    same place of the same buffer, whose held bytes agree on the bits still
    held and may differ on the bits already consumed, return the same
    value from [read] and stay at the same place. *)
Theorem read_ignores_consumed_bits (r1 r2 : R.t) (n : Z) :
  wf_reader r1 -> wf_reader r2 ->
  R.m_fifo r1 = R.m_fifo r2 -> R.m_fifo_idx r1 = R.m_fifo_idx r2 ->
  R.m_num_held_bits r1 = R.m_num_held_bits r2 ->
  R.m_held_bits r1 mod 2 ^ R.m_num_held_bits r1
  = R.m_held_bits r2 mod 2 ^ R.m_num_held_bits r2 ->
  0 <= n <= 32 -> n <= R.getNumBitsLeft r1 ->
  exists v r1' r2',
    R.read r1 n = Some (v, r1') /\ R.read r2 n = Some (v, r2') /\
    R.m_fifo_idx r1' = R.m_fifo_idx r2' /\
    R.m_num_held_bits r1' = R.m_num_held_bits r2' /\
    unread_value r1' = unread_value r2'.
Proof.
  intros Hwf1 Hwf2 Ef Ei En Eh Hn Hl.
  assert (EL : R.getNumBitsLeft r1 = R.getNumBitsLeft r2)
    by (unfold R.getNumBitsLeft; rewrite Ef, Ei, En; reflexivity).
  assert (EU : unread_value r1 = unread_value r2)
    by (unfold unread_value; rewrite Eh, Ef, Ei; reflexivity).
  destruct (read_value r1 n Hwf1 Hn Hl)
    as (v1 & r1' & E1 & Hwf1' & Hf1 & Hb1 & Hv1 & Hu1).
  destruct (read_value r2 n Hwf2 Hn ltac:(lia))
    as (v2 & r2' & E2 & Hwf2' & Hf2 & Hb2 & Hv2 & Hu2).
  exists v1, r1', r2'. split; [exact E1|].
  split; [rewrite E2, Hv2, Hv1, EU, EL; reflexivity|].
  assert (Hidx : R.m_fifo_idx r1' = R.m_fifo_idx r2' /\
                 R.m_num_held_bits r1' = R.m_num_held_bits r2').
  { destruct Hwf1' as (_ & _ & _ & ? & _), Hwf2' as (_ & _ & _ & ? & _).
    unfold R.getNumBitsLeft in *. rewrite Hf1, Hf2, Ef in *. lia. }
  split; [apply Hidx|]. split; [apply Hidx|].
  rewrite Hu1, Hu2, EU, EL. reflexivity.
Qed.

Lemma read_ignores_consumed_bits_witness :
  exists v r1' r2',
    R.read (R.mk [185; 64] 1 185 3) 5 = Some (v, r1') /\
    R.read (R.mk [185; 64] 1 1 3) 5 = Some (v, r2') /\
    R.m_fifo_idx r1' = R.m_fifo_idx r2' /\
    R.m_num_held_bits r1' = R.m_num_held_bits r2' /\
    unread_value r1' = unread_value r2'.
Proof.
  apply (read_ignores_consumed_bits
           (R.mk [185; 64] 1 185 3) (R.mk [185; 64] 1 1 3) 5);
    try reflexivity; try (cbn; lia);
    (unfold wf_reader; cbn; repeat split; try lia;
     repeat constructor; cbn; lia).
Defined.

(** X8.  Reads compose: on a well-formed reader with at least m + n bits
    left, m + n <= 32, one read of m + n bits returns a * 2^n + b, where a
    and b are what a read of m bits and then a read of n bits return, and
    both ways leave the cursor, the held count and the unread bits the
    same. *)
Theorem read_splits (r : R.t) (m n : Z) :
  wf_reader r -> 0 <= m -> 0 <= n -> m + n <= 32 ->
  m + n <= R.getNumBitsLeft r ->
  exists a b r1 r2 r',
    R.read r m = Some (a, r1) /\ R.read r1 n = Some (b, r2) /\
    R.read r (m + n) = Some (a * 2 ^ n + b, r') /\
    R.m_fifo_idx r' = R.m_fifo_idx r2 /\
    R.m_num_held_bits r' = R.m_num_held_bits r2 /\
    unread_value r' = unread_value r2.
Proof.
  intros Hwf Hm Hn H32 Hl.
  destruct (read_spec r m Hwf ltac:(lia) ltac:(lia))
    as (a & r1 & E1 & Hwf1 & Hf1 & Hb1 & Ha & Hu1).
  destruct (read_spec r1 n Hwf1 ltac:(lia) ltac:(lia))
    as (b & r2 & E2 & Hwf2 & Hf2 & Hb2 & Hb & Hu2).
  destruct (read_spec r (m + n) Hwf ltac:(lia) Hl)
    as (v & r' & E & Hwf' & Hf' & Hb' & Hv & Hu').
  pose proof (unread_bounds r2 Hwf2) as Hub2.
  pose proof (unread_bounds r' Hwf') as Hub'.
  set (L := R.getNumBitsLeft r - (m + n)) in *.
  assert (HL2 : R.getNumBitsLeft r2 = L) by (subst L; lia).
  assert (HL' : R.getNumBitsLeft r' = L) by (subst L; lia).
  assert (HL1 : R.getNumBitsLeft r1 = n + L) by (subst L; lia).
  rewrite HL2 in *. rewrite HL' in *. rewrite HL1 in *.
  assert (HLpos : 0 <= L) by (subst L; lia).
  pose proof (pow2_pos L HLpos) as HP.
  assert (Heq : v * 2 ^ L + unread_value r'
                = (a * 2 ^ n + b) * 2 ^ L + unread_value r2).
  { rewrite <- Hu'. rewrite Hu1, Hu2. rewrite pow2_split by lia. ring. }
  assert (Ev : v = a * 2 ^ n + b) by nia.
  exists a, b, r1, r2, r'. split; [exact E1|]. split; [exact E2|].
  split; [rewrite E, Ev; reflexivity|].
  assert (Hidx : R.m_fifo_idx r' = R.m_fifo_idx r2 /\
                 R.m_num_held_bits r' = R.m_num_held_bits r2).
  { destruct Hwf' as (_ & _ & _ & ? & _), Hwf2 as (_ & _ & _ & ? & _).
    unfold R.getNumBitsLeft in HL2, HL'. rewrite Hf', Hf2, Hf1 in *. lia. }
  split; [apply Hidx|]. split; [apply Hidx|]. subst v. lia.
Qed.

Lemma read_splits_witness :
  exists a b r1 r2 r',
    R.read (R.create [185; 64]) 3 = Some (a, r1) /\
    R.read r1 8 = Some (b, r2) /\
    R.read (R.create [185; 64]) (3 + 8) = Some (a * 2 ^ 8 + b, r') /\
    R.m_fifo_idx r' = R.m_fifo_idx r2 /\
    R.m_num_held_bits r' = R.m_num_held_bits r2 /\
    unread_value r' = unread_value r2.
Proof.
  apply (read_splits (R.create [185; 64]) 3 8); try lia.
  - apply wf_reader_create; [repeat constructor; cbn; lia | cbn; lia].
  - cbn; lia.
Defined.

(** ** The bytes a writer produces *)

Lemma padding_of_total (total nh q : Z) :
  0 <= nh <= 7 -> 8 * q + nh = total -> (8 - nh) mod 8 = (- total) mod 8.
Proof. intros Hnh E. subst total. Z.div_mod_to_equations; lia. Qed.

(** The stream of a list of fields, flushed with zero bits. *)
Lemma flushed_stream (fields : list (Z * Z)) :
  Forall field_in_contract fields ->
  exists s, W.write_all W.create fields = Some s /\
    wf_writer s /\
    8 * size (W.m_fifo s) + W.m_num_held_bits s = total_width fields /\
    wf_writer (W.writeAlignZero s) /\
    W.m_num_held_bits (W.writeAlignZero s) = 0 /\
    8 * size (W.m_fifo (W.writeAlignZero s))
    = total_width fields + (- total_width fields) mod 8 /\
    be_value (W.m_fifo (W.writeAlignZero s))
    = pack fields * 2 ^ ((- total_width fields) mod 8).
Proof.
  intros Hv.
  destruct (write_all_spec fields Hv W.create wf_writer_create)
    as (s & Ew & Hwf & Hbits & Hval).
  destruct (writeAlignZero_spec s Hwf) as (Hwf' & Hnh' & Hbits' & Hval').
  unfold W.getNumberOfWrittenBits in Hbits, Hbits'.
  change (W.m_fifo W.create) with (@nil Z) in Hbits.
  change (W.m_num_held_bits W.create) with 0 in Hbits.
  change (size []) with 0 in Hbits.
  assert (Hnh : 0 <= W.m_num_held_bits s <= 7) by apply Hwf.
  assert (Epad : W.getNumBitsUntilByteAligned s = (- total_width fields) mod 8).
  { unfold W.getNumBitsUntilByteAligned.
    apply (padding_of_total _ _ (size (W.m_fifo s))); lia. }
  rewrite Epad in *.
  exists s. split; [exact Ew|]. split; [exact Hwf|]. split; [lia|].
  split; [exact Hwf'|]. split; [exact Hnh'|]. split; [lia|].
  unfold written_value in Hval', Hval.
  rewrite Hnh' in Hval'.
  rewrite (held_zero_when_aligned _ Hwf' Hnh') in Hval'.
  change (W.m_fifo W.create) with (@nil Z) in Hval.
  change (W.m_held_bits W.create) with 0 in Hval.
  change (W.m_num_held_bits W.create) with 0 in Hval.
  cbn in Hval, Hval'.
  rewrite Z.mul_1_r, Z.add_0_r in Hval'. rewrite Hval', Hval. lia.
Qed.

(** X9.  The wire format.  Writing fields within the contract of [write]
    from an empty writer and flushing with [writeAlignZero] never faults
    and yields bytes that, taken as one big-endian number, are the fields
    concatenated first field first, each most significant bit first,
    followed by the fewest zero bits that complete a byte. *)
Theorem wire_format (fields : list (Z * Z)) :
  Forall field_in_contract fields ->
  exists s,
    W.write_all W.create fields = Some s /\
    Forall is_byte (W.getByteStream (W.writeAlignZero s)) /\
    8 * size (W.getByteStream (W.writeAlignZero s))
    = total_width fields + (- total_width fields) mod 8 /\
    be_value (W.getByteStream (W.writeAlignZero s))
    = pack fields * 2 ^ ((- total_width fields) mod 8).
Proof.
  intros Hv.
  destruct (flushed_stream fields Hv)
    as (s & Ew & _ & _ & Hwf' & _ & Hsz & Hbe).
  exists s. unfold W.getByteStream.
  split; [exact Ew|]. split; [apply Hwf'|]. split; assumption.
Qed.

Lemma wire_format_witness :
  exists s,
    W.write_all W.create [(5, 3); (0, 0); (202, 8)] = Some s /\
    Forall is_byte (W.getByteStream (W.writeAlignZero s)) /\
    8 * size (W.getByteStream (W.writeAlignZero s))
    = total_width [(5, 3); (0, 0); (202, 8)]
      + (- total_width [(5, 3); (0, 0); (202, 8)]) mod 8 /\
    be_value (W.getByteStream (W.writeAlignZero s))
    = pack [(5, 3); (0, 0); (202, 8)]
      * 2 ^ ((- total_width [(5, 3); (0, 0); (202, 8)]) mod 8).
Proof.
  apply (wire_format [(5, 3); (0, 0); (202, 8)]).
  repeat constructor; cbn; lia.
Defined.

(** ** Flushing the held byte *)

Lemma writeAlignOne_flush (s : W.t) :
  wf_writer s -> 1 <= W.m_num_held_bits s ->
  W.writeAlignOne s
  = Some (W.mk (W.m_fifo s
                ++ [W.m_held_bits s + 2 ^ (8 - W.m_num_held_bits s) - 1])
               0 0).
Proof.
  destruct s as [fifo held nh].
  intros (_ & Hnh & Hh & Hz) Hpos;
    cbn [W.m_fifo W.m_held_bits W.m_num_held_bits] in *.
  unfold W.writeAlignOne, W.getNumBitsUntilByteAligned;
    cbn [W.m_fifo W.m_held_bits W.m_num_held_bits].
  rewrite (Z.mod_small (8 - nh) 8) by lia.
  set (pad := 8 - nh) in *.
  rewrite (to_UInt_small pad) by lia.
  rewrite Z.shiftl_mul_pow2, Z.mul_1_l by lia.
  pose proof (pow2_pos pad ltac:(lia)) as HP.
  assert (H32 : 2 ^ pad <= 2 ^ 32) by (apply pow2_le; lia).
  rewrite (to_UInt_small (2 ^ pad - 1)) by lia.
  unfold W.write; cbn [W.m_fifo W.m_held_bits W.m_num_held_bits].
  replace (pad <=? 32) with true by (symmetry; apply Z.leb_le; lia).
  cbn [assert].
  replace (pad + nh) with 8 by (subst pad; lia).
  change (to_UInt 8) with 8. change (8 mod 8) with 0.
  change (Z.shiftr 8 3 =? 0) with false. cbv iota.
  change (Z.shiftr 8 3) with 1.
  rewrite next_held_bits_eq by lia.
  rewrite Z.mod_1_r, Z.mul_0_l, Z.sub_0_r.
  rewrite (to_UInt_small pad) by lia.
  rewrite land_not7 by lia.
  rewrite (Z.div_small pad 8) by lia.
  change (8 * 0) with 0. rewrite Z.shiftl_0_r, Z.shiftr_0_r.
  rewrite (lor_add_aligned held (2 ^ pad - 1) pad) by lia.
  destruct (held_decompose held nh Hnh Hh Hz) as [Eh Hhb].
  fold pad in Eh, Hhb.
  set (h := held / 2 ^ pad) in *. clearbody h.
  assert (E8 : 2 ^ 8 = 2 ^ nh * 2 ^ pad)
    by (rewrite <- pow2_split by lia; f_equal; subst pad; lia).
  assert (Hw : 0 <= held + (2 ^ pad - 1) < 2 ^ 8) by (rewrite Eh, E8; nia).
  rewrite to_UInt_small by lia.
  cbv [W.write_switch push_back]. rewrite to_uint8_small by lia.
  replace (held + (2 ^ pad - 1)) with (held + 2 ^ pad - 1) by lia.
  reflexivity.
Qed.

(** X10.  With bits held in a well-formed writer, both alignment calls
    flush exactly one byte and leave no held bit: [writeAlignZero] appends
    the held byte as it is (unused low bits zero), [writeAlignOne] appends
    it with its unused low bits all set. *)
Theorem align_flushes_held_byte (s : W.t) :
  wf_writer s -> 1 <= W.m_num_held_bits s ->
  W.writeAlignZero s = W.mk (W.m_fifo s ++ [W.m_held_bits s]) 0 0 /\
  W.writeAlignOne s
  = Some (W.mk (W.m_fifo s
                ++ [W.m_held_bits s + 2 ^ (8 - W.m_num_held_bits s) - 1])
               0 0).
Proof.
  intros Hwf Hpos. split; [|apply writeAlignOne_flush; assumption].
  unfold W.writeAlignZero, push_back.
  replace (0 =? W.m_num_held_bits s) with false
    by (symmetry; apply Z.eqb_neq; lia).
  rewrite to_uint8_small by apply Hwf. reflexivity.
Qed.

Lemma align_flushes_held_byte_witness :
  W.writeAlignZero (W.mk [1] 160 3) = W.mk ([1] ++ [160]) 0 0 /\
  W.writeAlignOne (W.mk [1] 160 3)
  = Some (W.mk ([1] ++ [160 + 2 ^ (8 - 3) - 1]) 0 0).
Proof.
  apply (align_flushes_held_byte (W.mk [1] 160 3)).
  - unfold wf_writer; cbn. repeat split; try lia.
    repeat constructor; cbn; lia.
  - cbn; lia.
Defined.

Lemma be_value_snoc (l : list Z) (b : Z) :
  be_value (l ++ [b]) = be_value l * 2 ^ 8 + b /\
  size (l ++ [b]) = size l + 1.
Proof.
  rewrite be_value_app, size_app. cbn. split; lia.
Qed.

(** The stream [writeAlignOne] leaves is the one [writeAlignZero] leaves
    with the padding bits set. *)
Lemma alignOne_stream (s : W.t) :
  wf_writer s ->
  exists s', W.writeAlignOne s = Some s' /\ wf_writer s' /\
    W.m_num_held_bits s' = 0 /\
    size (W.m_fifo s') = size (W.m_fifo (W.writeAlignZero s)) /\
    be_value (W.m_fifo s')
    = be_value (W.m_fifo (W.writeAlignZero s))
      + 2 ^ W.getNumBitsUntilByteAligned s - 1.
Proof.
  intros Hwf.
  destruct (writeAlignOne_spec s Hwf) as (s' & E & Hwf' & Hnh' & _).
  exists s'. split; [exact E|]. split; [exact Hwf'|]. split; [exact Hnh'|].
  assert (Hnh : 0 <= W.m_num_held_bits s <= 7) by apply Hwf.
  assert (Hh : is_byte (W.m_held_bits s)) by apply Hwf.
  unfold W.getNumBitsUntilByteAligned.
  destruct (padding_cases _ Hnh) as [[E0 Ep] | [Hpos Ep]]; rewrite Ep.
  - destruct s as [fifo held nh]. cbn in E0. subst nh.
    rewrite writeAlignOne_aligned in E by exact Hh. injection E as <-.
    cbn. split; lia.
  - rewrite writeAlignOne_flush in E by assumption.
    remember (W.m_held_bits s + 2 ^ (8 - W.m_num_held_bits s) - 1) as b1
      eqn:Eb1.
    injection E as <-.
    unfold W.writeAlignZero.
    replace (0 =? W.m_num_held_bits s) with false
      by (symmetry; apply Z.eqb_neq; lia).
    cbn [W.m_fifo]. unfold push_back.
    rewrite to_uint8_small by exact Hh.
    destruct (be_value_snoc (W.m_fifo s) (W.m_held_bits s)) as [-> ->].
    destruct (be_value_snoc (W.m_fifo s) b1) as [-> ->].
    split; lia.
Qed.

(** X11.  The round trip also holds when the stream is flushed with
    [writeAlignOne]: the fields written from an empty writer are read back
    exactly, and the padding bits that remain unread are all ones.  The
    stream is as long as a reader can address. *)
Theorem round_trip_align_one (fields : list (Z * Z)) :
  Forall valid_field fields ->
  total_width fields <= 8 * (2 ^ 32 - 1) ->
  exists s s' r',
    W.write_all W.create fields = Some s /\
    W.writeAlignOne s = Some s' /\
    R.read_all (R.create (W.getByteStream s')) (map snd fields)
    = Some (map fst fields, r') /\
    R.getNumBitsLeft r' = (- total_width fields) mod 8 /\
    unread_value r' = 2 ^ ((- total_width fields) mod 8) - 1.
Proof.
  intros Hv Hfit. apply valid_field_in_contract in Hv.
  destruct (flushed_stream fields Hv)
    as (s & Ew & Hwf & Hbits & _ & _ & Hsz & Hbe).
  destruct (alignOne_stream s Hwf) as (s' & E1 & Hwf' & Hnh' & Hsz' & Hbe').
  assert (Hnh : 0 <= W.m_num_held_bits s <= 7) by apply Hwf.
  assert (Epad : W.getNumBitsUntilByteAligned s = (- total_width fields) mod 8).
  { unfold W.getNumBitsUntilByteAligned.
    apply (padding_of_total _ _ (size (W.m_fifo s))); lia. }
  rewrite Epad in Hbe'.
  set (pad := (- total_width fields) mod 8) in *.
  assert (Hpad : 0 <= pad < 8) by (apply Z.mod_pos_bound; lia).
  pose proof (pow2_pos pad ltac:(lia)) as HP.
  assert (Hr : wf_reader (R.create (W.getByteStream s'))).
  { apply wf_reader_create; [apply Hwf'|]. unfold W.getByteStream. lia. }
  destruct (read_all_spec fields Hv (R.create (W.getByteStream s'))
              pad (2 ^ pad - 1) Hr)
    as (r' & Er & _ & _ & Hleft & Hun).
  - lia.
  - lia.
  - unfold R.getNumBitsLeft, R.create, W.getByteStream;
      cbn [R.m_fifo R.m_fifo_idx R.m_held_bits R.m_num_held_bits]. lia.
  - rewrite unread_value_create. unfold W.getByteStream. lia.
  - exists s, s', r'. auto.
Qed.

Lemma round_trip_align_one_witness :
  exists s s' r',
    W.write_all W.create [(5, 3); (202, 8)] = Some s /\
    W.writeAlignOne s = Some s' /\
    R.read_all (R.create (W.getByteStream s')) [3; 8] = Some ([5; 202], r') /\
    R.getNumBitsLeft r' = (- total_width [(5, 3); (202, 8)]) mod 8 /\
    unread_value r' = 2 ^ ((- total_width [(5, 3); (202, 8)]) mod 8) - 1.
Proof.
  apply (round_trip_align_one [(5, 3); (202, 8)]).
  - repeat constructor; cbn; lia.
  - cbn; lia.
Defined.

(** ** Writes compose *)

Lemma be_value_inj (l1 l2 : list Z) :
  Forall is_byte l1 -> Forall is_byte l2 -> length l1 = length l2 ->
  be_value l1 = be_value l2 -> l1 = l2.
Proof.
  intros H1. revert l2.
  induction H1 as [|b1 l1 Hb1 Hl1 IH]; intros l2 H2 Hlen E;
    destruct H2 as [|b2 l2 Hb2 Hl2]; try discriminate; [reflexivity|].
  cbn [length] in Hlen. injection Hlen as Hlen.
  cbn [be_value] in E.
  assert (Es : size l1 = size l2) by (unfold size; lia).
  rewrite Es in E.
  pose proof (be_value_bounds l1 Hl1) as B1. rewrite Es in B1.
  pose proof (be_value_bounds l2 Hl2) as B2.
  pose proof (pow2_pos (8 * size l2) ltac:(pose proof (size_nonneg l2); lia)).
  assert (Eb : b1 = b2) by nia.
  subst b2. f_equal. apply IH; [assumption | assumption | lia].
Qed.

(** A well-formed writer is determined by its bit count and bit string. *)
Lemma writer_ext (s1 s2 : W.t) :
  wf_writer s1 -> wf_writer s2 ->
  W.getNumberOfWrittenBits s1 = W.getNumberOfWrittenBits s2 ->
  written_value s1 = written_value s2 -> s1 = s2.
Proof.
  destruct s1 as [f1 h1 n1], s2 as [f2 h2 n2].
  unfold wf_writer, W.getNumberOfWrittenBits, written_value;
    cbn [W.m_fifo W.m_held_bits W.m_num_held_bits].
  intros (Hf1 & Hn1 & Hh1 & Hz1) (Hf2 & Hn2 & Hh2 & Hz2) Eb Ev.
  assert (En : n1 = n2) by lia. subst n2.
  assert (Es : size f1 = size f2) by lia.
  destruct (held_decompose h1 n1 Hn1 Hh1 Hz1) as [E1 B1].
  destruct (held_decompose h2 n1 Hn2 Hh2 Hz2) as [E2 B2].
  set (q1 := h1 / 2 ^ (8 - n1)) in *. set (q2 := h2 / 2 ^ (8 - n1)) in *.
  clearbody q1 q2.
  pose proof (pow2_pos n1 ltac:(lia)).
  assert (Ebe : be_value f1 = be_value f2) by nia.
  assert (Eq : q1 = q2) by nia.
  f_equal; [|congruence].
  apply be_value_inj; try assumption. unfold size in Es. lia.
Qed.

(** X12.  Writes compose: on a well-formed writer, writing one field of
    m + n <= 32 bits whose value is a * 2^n + b leaves exactly the state
    that writing a on m bits and then b on n bits leaves. *)
Theorem write_splits (s : W.t) (a b m n : Z) :
  wf_writer s -> 0 <= m -> 0 <= n -> m + n <= 32 ->
  0 <= a < 2 ^ m -> 0 <= b < 2 ^ n ->
  exists s',
    W.write s (a * 2 ^ n + b) (m + n) = Some s' /\
    (s1 <- W.write s a m ;; W.write s1 b n) = Some s'.
Proof.
  intros Hwf Hm Hn H32 Ha Hb.
  pose proof (pow2_pos n Hn) as HPn. pose proof (pow2_pos m Hm) as HPm.
  assert (Hab : 0 <= a * 2 ^ n + b < 2 ^ (m + n))
    by (rewrite pow2_split by lia; nia).
  destruct (write_spec s _ (m + n) Hwf ltac:(lia) Hab)
    as (s' & E & Hwf' & Hb' & Hv').
  destruct (write_spec s a m Hwf ltac:(lia) Ha)
    as (s1 & E1 & Hwf1 & Hb1 & Hv1).
  destruct (write_spec s1 b n Hwf1 ltac:(lia) Hb)
    as (s2 & E2 & Hwf2 & Hb2 & Hv2).
  exists s'. split; [exact E|]. rewrite E1, E2. f_equal.
  apply writer_ext; try assumption; [lia|].
  rewrite Hv2, Hv1, Hv'. rewrite pow2_split by lia. ring.
Qed.

Lemma write_splits_witness :
  exists s',
    W.write (W.mk [1] 160 3) (5 * 2 ^ 8 + 202) (3 + 8) = Some s' /\
    (s1 <- W.write (W.mk [1] 160 3) 5 3 ;; W.write s1 202 8) = Some s'.
Proof.
  apply (write_splits (W.mk [1] 160 3) 5 202 3 8); try lia.
  unfold wf_writer; cbn. repeat split; try lia.
  repeat constructor; cbn; lia.
Defined.

(** ** More on splicing *)

Lemma vector_insert_past_end (v : list Z) (pos : nat) (src : list Z) :
  (length v < pos)%nat -> W.vector_insert v pos src = None.
Proof.
  revert v. induction pos as [|p IH]; intros v Hlt; [lia|].
  destruct v as [|x v']; [reflexivity|].
  cbn [W.vector_insert]. rewrite IH by (simpl in Hlt; lia). reflexivity.
Qed.

Lemma insertAt_fault_cases (A B : W.t) (p : Z) :
  W.getNumberOfWrittenBits B mod 8 <> 0 \/ size (W.m_fifo A) < p ->
  W.insertAt A B p = None.
Proof.
  intros [Hal | Hgt]; unfold W.insertAt; rewrite to_UInt_mod8.
  - replace (0 =? W.getNumberOfWrittenBits B mod 8) with false
      by (symmetry; apply Z.eqb_neq; lia).
    reflexivity.
  - destruct (assert _); [|reflexivity].
    rewrite vector_insert_past_end by (unfold size in Hgt; lia).
    reflexivity.
Qed.


(** X13.  At a position within the destination's buffer, [insertAt]
    faults exactly when the source holds bits that are not flushed: its
    written bit count is not a multiple of 8, and the assertion fails. *)
Theorem insertAt_faults_iff (A B : W.t) (p : Z) :
  0 <= p <= size (W.m_fifo A) ->
  (W.insertAt A B p = None <-> W.getNumberOfWrittenBits B mod 8 <> 0).
Proof.
  intros Hp. split.
  - intros E Hal.
    rewrite insertAt_spec in E by assumption. discriminate E.
  - intros Hal. apply insertAt_fault_cases. left. exact Hal.
Qed.

Lemma insertAt_faults_iff_witness :
  W.insertAt (W.mk [1; 2; 3] 0 0) (W.mk [10] 128 1) 1 = None
  <-> W.getNumberOfWrittenBits (W.mk [10] 128 1) mod 8 <> 0.
Proof.
  apply (insertAt_faults_iff (W.mk [1; 2; 3] 0 0) (W.mk [10] 128 1) 1).
  cbn; lia.
Defined.



(** X15.  A writer that has just been aligned is always an acceptable
    source: whatever the states of the two writers, [insertAt] of the
    result of [writeAlignZero] or of [writeAlignOne] at a position within
    the destination's buffer does not fault. *)
Theorem insertAt_accepts_aligned (A B : W.t) (p : Z) :
  0 <= p <= size (W.m_fifo A) ->
  (exists A', W.insertAt A (W.writeAlignZero B) p = Some A') /\
  (exists B1 A', W.writeAlignOne B = Some B1 /\ W.insertAt A B1 p = Some A').
Proof.
  intros Hp. split.
  - eexists. apply insertAt_spec; [|exact Hp].
    unfold W.getNumberOfWrittenBits, W.writeAlignZero.
    destruct (Z.eqb_spec 0 (W.m_num_held_bits B)) as [E | E];
      cbn [W.m_fifo W.m_num_held_bits]; [rewrite <- E|];
      rewrite Z.add_0_r; apply Z.mod_mul; lia.
  - destruct (writeAlignOne_leaves_none_held B) as (fifo & held & E & _).
    eexists. eexists. split; [exact E|].
    apply insertAt_spec; [|exact Hp].
    unfold W.getNumberOfWrittenBits; cbn [W.m_fifo W.m_num_held_bits].
    rewrite Z.add_0_r. apply Z.mod_mul. lia.
Qed.

Lemma insertAt_accepts_aligned_witness :
  (exists A',
     W.insertAt (W.mk [1; 2; 3] 0 0) (W.writeAlignZero (W.mk [10] 128 1)) 1
     = Some A') /\
  (exists B1 A',
     W.writeAlignOne (W.mk [10] 128 1) = Some B1 /\
     W.insertAt (W.mk [1; 2; 3] 0 0) B1 1 = Some A').
Proof.
  apply (insertAt_accepts_aligned (W.mk [1; 2; 3] 0 0) (W.mk [10] 128 1) 1).
  cbn; lia.
Defined.

Lemma total_width_app (fa fb : list (Z * Z)) :
  total_width (fa ++ fb) = total_width fa + total_width fb.
Proof.
  induction fa as [|[v n] fa IH]; cbn [app total_width]; lia.
Qed.

Lemma pack_app (fa fb : list (Z * Z)) :
  Forall field_in_contract fa -> Forall field_in_contract fb ->
  pack (fa ++ fb) = pack fa * 2 ^ total_width fb + pack fb.
Proof.
  intros Ha Hb. induction Ha as [|[v n] fa [Hn Hv] Hfa IH];
    cbn [app pack]; [lia|].
  rewrite IH, total_width_app.
  pose proof (total_width_nonneg fa Hfa).
  pose proof (total_width_nonneg fb Hb).
  rewrite pow2_split by lia. ring.
Qed.

(** X16.  Splicing is concatenation of streams.  When the fields of A fill
    whole bytes, inserting the flushed stream of the fields of B at the end
    of A's buffer gives exactly the writer that writing the fields of A
    followed by those of B, and flushing, gives. *)
Theorem insertAt_end_concatenates (fa fb : list (Z * Z)) :
  Forall field_in_contract fa -> Forall field_in_contract fb ->
  total_width fa mod 8 = 0 ->
  exists sa sb sc,
    W.write_all W.create fa = Some sa /\
    W.write_all W.create fb = Some sb /\
    W.write_all W.create (fa ++ fb) = Some sc /\
    W.insertAt sa (W.writeAlignZero sb) (size (W.getByteStream sa))
    = Some (W.writeAlignZero sc).
Proof.
  intros Ha Hb Hal.
  destruct (flushed_stream fa Ha) as (sa & Ea & Hwfa & Hba & _).
  destruct (flushed_stream fb Hb)
    as (sb & Eb & _ & _ & HwfB & HnB & HszB & HbeB).
  destruct (flushed_stream (fa ++ fb))
    as (sc & Ec & _ & _ & HwfC & HnC & HszC & HbeC);
    [apply Forall_app; split; assumption|].
  exists sa, sb, sc. split; [exact Ea|]. split; [exact Eb|]. split; [exact Ec|].
  unfold W.getByteStream.
  pose proof (size_nonneg (W.m_fifo sa)) as Hsa.
  assert (HnA : W.m_num_held_bits sa = 0).
  { destruct Hwfa as (_ & ? & _). revert Hal. rewrite <- Hba.
    Z.div_mod_to_equations; lia. }
  pose proof (held_zero_when_aligned sa Hwfa HnA) as HhA.
  assert (HvA : be_value (W.m_fifo sa) = pack fa).
  { destruct (write_all_spec fa Ha W.create wf_writer_create)
      as (sa' & Ea' & _ & _ & Hv).
    rewrite Ea in Ea'. injection Ea' as <-.
    unfold written_value in Hv. rewrite HnA, HhA in Hv.
    cbn in Hv. lia. }
  rewrite insertAt_spec;
    [| unfold W.getNumberOfWrittenBits; rewrite HnB, Z.add_0_r;
       apply Z.mod_mul; lia
     | lia ].
  f_equal.
  replace (Z.to_nat (size (W.m_fifo sa))) with (length (W.m_fifo sa))
    by (unfold size; lia).
  rewrite firstn_all, skipn_all, app_nil_r.
  rewrite total_width_app in HszC, HbeC.
  assert (Epad : (- (total_width fa + total_width fb)) mod 8
                 = (- total_width fb) mod 8)
    by (revert Hal; Z.div_mod_to_equations; lia).
  rewrite Epad in HszC, HbeC.
  set (pad := (- total_width fb) mod 8) in *.
  assert (Hpad : 0 <= pad < 8) by (apply Z.mod_pos_bound; lia).
  assert (Efifo : W.m_fifo sa ++ W.m_fifo (W.writeAlignZero sb)
                  = W.m_fifo (W.writeAlignZero sc)).
  { apply be_value_inj.
    - apply Forall_app; split; [apply Hwfa | apply HwfB].
    - apply HwfC.
    - pose proof (size_app (W.m_fifo sa) (W.m_fifo (W.writeAlignZero sb))) as Es.
      unfold size in *. lia.
    - rewrite be_value_app, HbeC, HbeB, HvA, pack_app by assumption.
      rewrite HszB.
      pose proof (total_width_nonneg fb Hb).
      rewrite pow2_split by lia. ring. }
  rewrite HnA, HhA.
  destruct (W.writeAlignZero sc) as [fc hc nc] eqn:EC.
  cbn [W.m_fifo W.m_num_held_bits] in *.
  pose proof (held_zero_when_aligned _ HwfC HnC) as HhC.
  cbn [W.m_held_bits] in HhC. subst. reflexivity.
Qed.

Lemma insertAt_end_concatenates_witness :
  exists sa sb sc,
    W.write_all W.create [(5, 3); (10, 5)] = Some sa /\
    W.write_all W.create [(202, 8); (1, 2)] = Some sb /\
    W.write_all W.create ([(5, 3); (10, 5)] ++ [(202, 8); (1, 2)]) = Some sc /\
    W.insertAt sa (W.writeAlignZero sb) (size (W.getByteStream sa))
    = Some (W.writeAlignZero sc).
Proof.
  apply (insertAt_end_concatenates [(5, 3); (10, 5)] [(202, 8); (1, 2)]).
  - repeat constructor; cbn; lia.
  - repeat constructor; cbn; lia.
  - reflexivity.
Defined.
